(** * Bigram counting over a word list

    A shallow embedding of the two code cells of section 11 of the notebook
    ("Putting It All Together: Counting Bigrams from names.txt"):

    - the dictionary approach, which fills the dict [b] and ranks its items;
    - the 2D array approach, which derives [chars], [stoi], [itos] and fills
      the NumPy matrix [N].

    Python values are embedded as follows.  A [str] is a [string], with the
    8-bit code points of [ascii] as characters; iterating a [str] yields its
    one-character strings.  A [dict] is an association list in insertion
    order with unique keys, because [sorted] is stable and therefore observes
    the iteration order of [b.items()].  A Python [int] is a [Z]; a cell of
    an [np.zeros(..., dtype=int)] array is a signed 64-bit integer (NumPy's
    default integer where the C long has 64 bits), so the in-place increment
    wraps.  An exception is the [Err] branch of [result]. *)

From Stdlib Require Import ZArith List Ascii String Lia Permutation Sorted.
From stdpp Require Import base tactics option list gmap strings.

#[local] Open Scope Z_scope.

(** ** Python runtime fragment *)

Module Py.

Inductive pyerr : Type :=
  | KeyError (k : string)
  | IndexError
  | ValueError.

Inductive result (A : Type) : Type :=
  | Ok (a : A)
  | Err (e : pyerr).
Arguments Ok {A} a.
Arguments Err {A} e.

Definition bind {A B} (r : result A) (f : A → result B) : result B :=
  match r with
  | Ok a => f a
  | Err e => Err e
  end.

Definition fails {A} (r : result A) : Prop := ∃ e, r = Err e.

(** [for x in xs: st = body(st, x)] where the body may raise. *)
Fixpoint for_each {S X} (body : S → X → result S) (xs : list X) (st : S)
  : result S :=
  match xs with
  | [] => Ok st
  | x :: xs' => bind (body st x) (for_each body xs')
  end.

(** The same loop over a variable that outlives it: the value the variable
    holds when the loop ends or raises, and the exception if there is one. *)
Fixpoint for_each_store {S X} (body : S → X → S * option pyerr) (xs : list X)
    (st : S) : S * option pyerr :=
  match xs with
  | [] => (st, None)
  | x :: xs' =>
      match body st x with
      | (st', None) => for_each_store body xs' st'
      | (st', Some e) => (st', Some e)
      end
  end.

(** A statement that raises before it assigns leaves the variable as it was. *)
Definition store_of {S} (st : S) (r : result S) : S * option pyerr :=
  match r with
  | Ok st' => (st', None)
  | Err e => (st, Some e)
  end.


(** Values that can be used as keys or values of a dynamically typed dict. *)
Inductive pyval : Type :=
  | PStr (s : string)
  | PInt (n : Z).

#[global] Instance pyval_eq_dec : EqDecision pyval.
Proof. solve_decision. Defined.

(** Insertion-ordered dictionaries. *)
Section dict.
Context {K V : Type} `{EqDecision K}.

Definition dict : Type := list (K * V).

(** [d.get(k)] *)
Fixpoint dict_get (k : K) (d : dict) : option V :=
  match d with
  | [] => None
  | (k', v) :: d' => if decide (k = k') then Some v else dict_get k d'
  end.

(** [d.get(k, dflt)] *)
Definition dict_get_default (k : K) (dflt : V) (d : dict) : V :=
  default dflt (dict_get k d).

(** [d[k] = v]: an existing key keeps its position, a new key goes last. *)
Fixpoint dict_set (k : K) (v : V) (d : dict) : dict :=
  match d with
  | [] => [(k, v)]
  | (k', v') :: d' =>
      if decide (k = k') then (k, v) :: d' else (k', v') :: dict_set k v d'
  end.

Definition keys (d : dict) : list K := map fst d.
Definition values (d : dict) : list V := map snd d.
End dict.
Arguments dict : clear implicits.

(** [d[k]] on a dict keyed by strings. *)
Definition dict_getitem {V} (k : string) (d : dict string V) : result V :=
  match dict_get k d with
  | Some v => Ok v
  | None => Err (KeyError k)
  end.

(** [list(w)]: the one-character strings of [w]. *)
Definition char_str (c : ascii) : string := String c EmptyString.
Definition list_str (w : string) : list string :=
  map char_str (list_ascii_of_string w).

(** [zip(chs, chs[1:])] *)
Definition zip_next {A} (chs : list A) : list (A * A) := zip chs (tail chs).

(** [sorted(xs, key=key)]: a stable ascending sort that compares keys with
    [<] only.  The result of a stable sort is determined by the input and
    the key, so it is computed here by insertion from the right. *)
Section sorted.
Context {A K : Type} (key : A → K) (ltb : K → K → bool).

Fixpoint sorted_insert (x : A) (l : list A) : list A :=
  match l with
  | [] => [x]
  | y :: l' =>
      if ltb (key y) (key x) then y :: sorted_insert x l' else x :: y :: l'
  end.

Definition sorted (l : list A) : list A := foldr sorted_insert [] l.

(** [x] may precede [y] in an ascending order: [key y < key x] is false. *)
Definition may_precede (x y : A) : Prop := ltb (key y) (key x) = false.
End sorted.

End Py.
Import Py.

Notation "x ← r ; k" := (bind r (λ x, k))
  (at level 20, r at level 100, k at level 200, only parsing).

(** ** The dictionary approach *)

Abbreviation bigram := (string * string)%type (only parsing).

(** One word of the loop at lines 703-708:
<<
    chs = ['<S>'] + list(w) + ['<E>']
    for ch1, ch2 in zip(chs, chs[1:]):
        bigram = (ch1, ch2)
        b[bigram] = b.get(bigram, 0) + 1
>> *)
Definition sparse_chs (w : string) : list string :=
  ["<S>"] ++ list_str w ++ ["<E>"].

Definition sparse_step (b : dict bigram Z) (p : string * string)
  : dict bigram Z :=
  let '(ch1, ch2) := p in
  let bigram := (ch1, ch2) in
  dict_set bigram (dict_get_default bigram 0 b + 1) b.

Definition sparse_word (b : dict bigram Z) (w : string) : dict bigram Z :=
  let chs := sparse_chs w in
  fold_left sparse_step (zip_next chs) b.

(** [b = {}] followed by the loop over [words]. *)
Definition countBigramsSparse (words : list string) : dict bigram Z :=
  fold_left sparse_word words [].

(** [sum(b.values())] *)
Definition dict_sum {K} (d : dict K Z) : Z := foldr Z.add 0 (values d).

(** [sum(len(w) for w in words)] and [len(words)] *)
Definition total_chars (words : list string) : Z :=
  foldr Z.add 0 (map (λ w, Z.of_nat (String.length w)) words).
Definition num_words (words : list string) : Z := Z.of_nat (length words).

(** The bigram occurrences of the corpus, in the order the loop visits them. *)
Definition sparse_bigrams (words : list string) : list bigram :=
  flat_map (λ w, zip_next (sparse_chs w)) words.

(** Number of occurrences of [k] in [l]. *)
Fixpoint occ {A} `{EqDecision A} (k : A) (l : list A) : Z :=
  match l with
  | [] => 0
  | x :: l' => (if decide (k = x) then 1 else 0) + occ k l'
  end.

(** Lines 711-712:
<<
    sorted_bigrams = sorted(b.items(), key=lambda kv: -kv[1])
    print(..., sorted_bigrams[:10])
>>
    [b.items()] iterates in insertion order, which is the order of the
    association list.  [topBigrams b k] is the slice [sorted_bigrams[:k]];
    the notebook prints it for [k = 10]. *)
Definition sorted_bigrams (b : dict bigram Z) : list (bigram * Z) :=
  sorted (λ kv, - kv.2) Z.ltb b.

Definition topBigrams (b : dict bigram Z) (k : nat) : list (bigram * Z) :=
  take k (sorted_bigrams b).

(** The ranking in the words of the specification, for comparison: count
    descending, ties broken by ascending lexicographic order on the pair. *)
Definition bigram_ltb (p q : bigram) : bool :=
  match String.compare p.1 q.1 with
  | Lt => true
  | Eq => String.ltb p.2 q.2
  | Gt => false
  end.

Definition rank_ltb (x y : bigram * Z) : bool :=
  (y.2 <? x.2) || ((x.2 =? y.2) && bigram_ltb x.1 y.1).

Definition topBigrams_lex (b : dict bigram Z) (k : nat) : list (bigram * Z) :=
  take k (sorted id rank_ltb b).

(** The data inspection that precedes the count in the same cell (lines
    696-700); [min] and [max] of an empty generator raise [ValueError]. *)
Definition py_min (xs : list Z) : result Z :=
  match xs with
  | [] => Err ValueError
  | x :: xs' => Ok (fold_left Z.min xs' x)
  end.

Definition py_max (xs : list Z) : result Z :=
  match xs with
  | [] => Err ValueError
  | x :: xs' => Ok (fold_left Z.max xs' x)
  end.

Definition inspect (words : list string) : result (list string * Z * Z * Z) :=
  let lens := map (λ w, Z.of_nat (String.length w)) words in
  mn ← py_min lens;
  mx ← py_max lens;
  Ok (take 10 words, num_words words, mn, mx).

Definition dictionary_cell (words : list string)
  : result (dict bigram Z * list (bigram * Z)) :=
  _ ← inspect words;
  let b := countBigramsSparse words in
  Ok (b, topBigrams b 10).

(** The kernel's global namespace as far as the counting loop touches it.
    [b = {}] rebinds [b] before the loop, whatever an earlier run left. *)
Record globals : Type := {
  g_words : list string;
  g_b : option (dict bigram Z)
}.

Definition count_cell (g : globals) : globals :=
  let b := [] in
  let b := fold_left sparse_word (g_words g) b in
  {| g_words := g_words g; g_b := Some b |}.

(** ** The 2D array approach *)

(** A cell of an [int64] array after an arithmetic result [z]. *)
Definition wrap64 (z : Z) : Z := (z + 2 ^ 63) mod 2 ^ 64 - 2 ^ 63.

Abbreviation matrix := (list (list Z)) (only parsing).

(** [np.zeros((rows, cols), dtype=int)] *)
Definition np_zeros (rows cols : nat) : matrix :=
  replicate rows (replicate cols 0).

Definition shape (N : matrix) (rows cols : nat) : Prop :=
  length N = rows ∧ Forall (λ row, length row = cols) N.

Definition cell (N : matrix) (i j : nat) : option Z :=
  match N !! i with
  | Some row => row !! j
  | None => None
  end.

(** The exact sum of all cells. *)
Definition mat_sum (N : matrix) : Z :=
  foldr Z.add 0 (map (foldr Z.add 0) N).

(** [N[ix1, ix2] += 1]; an index outside the array raises [IndexError]. *)
Definition incr_cell (N : matrix) (ix1 ix2 : nat) : result matrix :=
  match N !! ix1 with
  | None => Err IndexError
  | Some row =>
      match row !! ix2 with
      | None => Err IndexError
      | Some x => Ok (<[ix1 := <[ix2 := wrap64 (x + 1)]> row]> N)
      end
  end.

(** Line 731: [chars = sorted(list(set(''.join(words))))].  The iteration
    order of a Python set is unspecified; [elements] fixes one, and [sorted]
    makes the result independent of it. *)
Definition py_set (xs : list string) : gset string := list_to_set xs.

Definition deriveAlphabet (words : list string) : list string :=
  sorted id String.ltb (elements (py_set (list_str (String.concat "" words)))).

(** [enumerate(l)] *)
Definition enumerate {A} (l : list A) : list (nat * A) :=
  zip (seq 0 (length l)) l.

(** Line 735: [stoi = {s: i for i, s in enumerate(chars)}] *)
Definition stoi_step (d : dict string nat) (p : nat * string)
  : dict string nat :=
  let '(i, s) := p in dict_set s i d.

Definition make_stoi (chars : list string) : dict string nat :=
  fold_left stoi_step (enumerate chars) [].

(** Line 736: [itos = {i: s for i, s in stoi.items()}].  The loop variables
    are bound as the source binds them: [i] to the key of [stoi] (a symbol)
    and [s] to its value (an index). *)
Definition itos_step (d : dict pyval pyval) (p : string * nat)
  : dict pyval pyval :=
  let '(i, s) := p in dict_set (PStr i) (PInt (Z.of_nat s)) d.

Definition make_itos (stoi : dict string nat) : dict pyval pyval :=
  fold_left itos_step stoi [].


(** Lines 742-747:
<<
    chs = ['.'] + list(w) + ['.']
    for ch1, ch2 in zip(chs, chs[1:]):
        ix1 = stoi[ch1]
        ix2 = stoi[ch2]
        N[ix1, ix2] += 1
>> *)
Definition dense_chs (w : string) : list string :=
  ["."] ++ list_str w ++ ["."].

Definition dense_step (stoi : dict string nat) (N : matrix)
    (p : string * string) : result matrix :=
  let '(ch1, ch2) := p in
  ix1 ← dict_getitem ch1 stoi;
  ix2 ← dict_getitem ch2 stoi;
  incr_cell N ix1 ix2.

Definition dense_word (stoi : dict string nat) (N : matrix) (w : string)
  : result matrix :=
  let chs := dense_chs w in
  for_each (dense_step stoi) (zip_next chs) N.

Record dense_tables : Type := {
  tbl_chars : list string;
  tbl_stoi : dict string nat;
  tbl_itos : dict pyval pyval;
  tbl_N : matrix
}.

(** Lines 732-747 for a given character list [alphabet] (the value of
    [chars] after line 731): the boundary symbol is put in front, the index
    mappings are built, and the matrix is filled. *)
Definition countBigramsDense (words : list string) (alphabet : list string)
  : result dense_tables :=
  let chars := ["."] ++ alphabet in
  let stoi := make_stoi chars in
  let itos := make_itos stoi in
  let N := np_zeros (length chars) (length chars) in
  N ← for_each (dense_word stoi) words N;
  Ok {| tbl_chars := chars; tbl_stoi := stoi; tbl_itos := itos; tbl_N := N |}.

(** [N] is a global of the kernel that the fill loop updates in place:
    what it holds once the loop has ended or raised. *)
Definition dense_word_store (stoi : dict string nat) (N : matrix) (w : string)
  : matrix * option pyerr :=
  let chs := dense_chs w in
  for_each_store (λ N p, store_of N (dense_step stoi N p)) (zip_next chs) N.

Definition dense_N_store (words : list string) (alphabet : list string)
  : matrix * option pyerr :=
  let chars := ["."] ++ alphabet in
  let stoi := make_stoi chars in
  let N := np_zeros (length chars) (length chars) in
  for_each_store (dense_word_store stoi) words N.

(** The whole cell, lines 731-747. *)
Definition dense_cell (words : list string) : result dense_tables :=
  countBigramsDense words (deriveAlphabet words).

(** The matrix index of a symbol of the sparse table: the start and end
    tokens of the dictionary approach are the boundary symbol ['.'] of the
    array approach. *)
Definition to_dot (s : string) : string :=
  if decide (s = "<S>") then "."
  else if decide (s = "<E>") then "." else s.

Definition sym_index (stoi : dict string nat) (s : string) : option nat :=
  dict_get (to_dot s) stoi.

(** The index pairs the fill loop visits, in order (when no lookup fails). *)
Definition dense_bigrams (words : list string) : list bigram :=
  flat_map (λ w, zip_next (dense_chs w)) words.

(** The pair of matrix indices of a bigram of the fill loop. *)
Definition idx_pair (stoi : dict string nat) (p : string * string)
  : option nat * option nat :=
  (dict_get p.1 stoi, dict_get p.2 stoi).

(** Both symbols of [p] have an index inside an [n] by [n] matrix. *)
Definition indexed (stoi : dict string nat) (n : nat) (p : string * string)
  : Prop :=
  ∃ i j, dict_get p.1 stoi = Some i ∧ dict_get p.2 stoi = Some j
         ∧ (i < n)%nat ∧ (j < n)%nat.

(** [s] is the one-character string of a character of some word. *)
Definition corpus_symbol (words : list string) (s : string) : Prop :=
  ∃ w c, w ∈ words ∧ c ∈ list_ascii_of_string w ∧ s = char_str c.

(** A word [w] uses only characters of [alphabet]. *)
Definition drawn_from (alphabet : list string) (w : string) : Prop :=
  ∀ c, c ∈ list_ascii_of_string w → char_str c ∈ alphabet.

(** No word contains the character ['.']. *)
Definition dot_free (words : list string) : Prop :=
  ∀ w, w ∈ words → "."%char ∉ list_ascii_of_string w.

(** Code-point order on characters. *)
Definition code_lt (a b : ascii) : Prop := (nat_of_ascii a < nat_of_ascii b)%nat.

(** * The other cells of the two notebooks *)

(** ** Observations on the bigram tables *)

(** The sum of the counts of the keys that satisfy [P]. *)
Definition dict_sum_where {K} (P : K → bool) (d : dict K Z) : Z :=
  dict_sum (List.filter (λ kv, P kv.1) d).

(** ** List and dict comprehensions (first notebook) *)

(** Lines 59-60 of the first notebook:
<<
    chars = sorted(list(set(''.join(words))))
    char_to_index = {ch: i for i, ch in enumerate(chars)}
>> *)
Definition char_to_index (words : list string) : dict string nat :=
  let chars := deriveAlphabet words in
  fold_left stoi_step (enumerate chars) [].

(** Line 79: [odd_squares = [n * n for n in numbers if n % 2 == 1]].  A list
    comprehension appends in iteration order; [%] with a positive divisor
    is the floored remainder, as [Z.modulo]. *)
Definition odd_squares (numbers : list Z) : list Z :=
  fold_left (λ acc n, if decide (n mod 2 = 1) then acc ++ [n * n] else acc)
    numbers [].

(** [text.count(ch)] for a one-character string [ch], the only arguments
    line 165 passes. *)
Definition str_count (text ch : string) : Z := occ ch (list_str text).

(** Line 165: [char_counts = {ch: text.count(ch) for ch in set(text)}] *)
Definition char_counts (text : string) : dict string Z :=
  fold_left (λ d ch, dict_set ch (str_count text ch) d)
    (elements (py_set (list_str text))) [].

(** Lines 254-257, the values the generator yields until it is exhausted:
<<
    def countdown(n):
        while n > 0:
            yield n
            n -= 1
>>
    One unit of fuel pays for one test of the loop condition. *)
Fixpoint countdown (fuel : nat) (n : Z) : option (list Z) :=
  match fuel with
  | O => None
  | S fuel' =>
      if decide (0 < n) then cons n <$> countdown fuel' (n - 1) else Some []
  end.

(** Line 341: [sorted_pairs = sorted(pairs, key=lambda x: x[1])] *)
Definition sorted_pairs (pairs : list (string * Z)) : list (string * Z) :=
  sorted (λ x, x.2) Z.ltb pairs.

(** ** The second notebook *)

(** Exceptions of the second notebook that the bigram cells never raise. *)
Inductive exn : Type :=
  | TypeError
  | AttributeError.

Inductive outcome (A : Type) : Type :=
  | Returns (a : A)
  | Raises (e : exn).
Arguments Returns {A} a.
Arguments Raises {A} e.

(** Line 99: [flattened = [y for x in matrix for y in x]] *)
Definition flattened (matrix : list (list Z)) : list Z :=
  fold_left (λ acc x, fold_left (λ acc y, acc ++ [y]) x acc) matrix [].

(** Line 139: [sum_list = [a + b for (a, b) in zip(list1, list2)]] *)
Definition sum_list (list1 list2 : list Z) : list Z :=
  fold_left (λ acc p, let '(a, b) := p in acc ++ [a + b]) (zip list1 list2) [].


(** Lines 371-383: [map], [filter] and [reduce] without an initial value,
    which raises [TypeError] on an empty sequence. *)
Definition squares (nums : list Z) : list Z := map (λ x, x ^ 2) nums.

Definition evens (nums : list Z) : list Z :=
  List.filter (λ x, x mod 2 =? 0) nums.

Definition reduce {A} (f : A → A → A) (xs : list A) : outcome A :=
  match xs with
  | [] => Raises TypeError
  | x :: xs' => Returns (fold_left f xs' x)
  end.

Definition product (nums : list Z) : outcome Z := reduce (λ a b, a * b) nums.

Definition odd_squares_pipeline (nums : list Z) : list Z :=
  map (λ x, x ^ 2) (List.filter (λ x, x mod 2 =? 1) nums).

(** [range(start, stop, step)] *)
Definition range (start stop step : Z) : result (list Z) :=
  if decide (step = 0) then Err ValueError
  else
    let len :=
      if decide (0 < step) then (stop - start + step - 1) / step
      else (start - stop - step - 1) / (- step) in
    Ok (map (λ k, start + Z.of_nat k * step) (seq 0 (Z.to_nat len))).

(** [data[i:j]] for [0 <= i <= j], the only bounds [batchify] passes. *)
Definition slice {A} (data : list A) (i j : Z) : list A :=
  take (Z.to_nat (j - i)) (drop (Z.to_nat i) data).

(** Lines 526-530, the value [compute_sum(n)] returns; the [timer]
    decorator around it prints the elapsed time and hands the result of the
    call on unchanged:
<<
    def compute_sum(n):
        total = 0
        for i in range(n):
            total += i
        return total
>> *)
Definition compute_sum (n : Z) : result Z :=
  rng ← range 0 n 1;
  Ok (fold_left (λ total i, total + i) rng 0).

(** Lines 654-663: [concatenate(words, sep)] returns [sep.join(words)].
    The type hint on [sep] is not enforced: an [int] has no [join] and the
    call raises [AttributeError]. *)
Definition concatenate (words : list string) (sep : pyval) : outcome string :=
  match sep with
  | PStr s => Returns (String.concat s words)
  | PInt _ => Raises AttributeError
  end.

(** Lines 732-737, the values the generator yields until it is exhausted:
<<
    def count_up_to(n):
        i = 1
        while i <= n:
            yield i
            i += 1
>> *)
Fixpoint count_up_from (fuel : nat) (i n : Z) : option (list Z) :=
  match fuel with
  | O => None
  | S fuel' =>
      if decide (i ≤ n) then cons i <$> count_up_from fuel' (i + 1) n
      else Some []
  end.

Definition count_up_to (fuel : nat) (n : Z) : option (list Z) :=
  let i := 1 in count_up_from fuel i n.

(** Lines 772-775, the batches the generator yields:
<<
    def batchify(data, batch_size):
        for i in range(0, len(data), batch_size):
            yield data[i:i + batch_size]
>> *)
Definition batchify {A} (data : list A) (batch_size : Z)
  : result (list (list A)) :=
  rng ← range 0 (Z.of_nat (length data)) batch_size;
  Ok (map (λ i, slice data i (i + batch_size)) rng).

(** [N[i, :].sum()] and [N[:, j].sum()] for an index inside the array: the
    exact sums of a row and of a column of the count matrix. *)
Definition row_sum (N : matrix) (i : nat) : Z :=
  foldr Z.add 0 (default [] (N !! i)).

Definition col_sum (N : matrix) (j : nat) : Z :=
  foldr Z.add 0 (map (λ row, default 0 (row !! j)) N).

(** * Properties *)

(** ** Dictionaries *)

Section dict_facts.
Context {K V : Type} `{EqDecision K}.
Implicit Types (d : dict K V) (k : K) (v : V).

Lemma dict_get_set k k' v d :
  dict_get k (dict_set k' v d) =
    if decide (k = k') then Some v else dict_get k d.
Proof.
  induction d as [|[k0 v0] d IH]; simpl.
  - by destruct (decide (k = k')).
  - destruct (decide (k' = k0)) as [->|Hne]; simpl.
    + by destruct (decide (k = k0)).
    + rewrite IH. destruct (decide (k = k0)) as [->|]; [|done].
      by rewrite decide_False by done.
Qed.

Lemma dict_get_elem_of k v d : dict_get k d = Some v → (k, v) ∈ d.
Proof.
  induction d as [|[k0 v0] d IH]; simpl; [done|].
  destruct (decide (k = k0)) as [->|]; intros Hg.
  - injection Hg as ->. apply list_elem_of_here.
  - apply list_elem_of_further. auto.
Qed.

Lemma dict_get_None k d : dict_get k d = None ↔ k ∉ keys d.
Proof.
  unfold keys. induction d as [|[k0 v0] d IH]; cbn [dict_get map fst].
  - split; [intros _; apply not_elem_of_nil|done].
  - rewrite not_elem_of_cons. destruct (decide (k = k0)) as [->|Hne].
    + split; [done|]. by intros [? _].
    + rewrite IH. split; [done|]. by intros [_ ?].
Qed.

Lemma dict_get_is_Some k d : is_Some (dict_get k d) ↔ k ∈ keys d.
Proof.
  rewrite <-not_eq_None_Some, dict_get_None.
  destruct (decide (k ∈ keys d)); naive_solver.
Qed.

Lemma dict_set_fresh k v d : k ∉ keys d → dict_set k v d = d ++ [(k, v)].
Proof.
  induction d as [|[k0 v0] d IH]; simpl; [done|].
  rewrite not_elem_of_cons. intros [Hne Hnin].
  rewrite decide_False by done. by rewrite IH.
Qed.

Lemma keys_set k v d :
  keys (dict_set k v d) = if decide (k ∈ keys d) then keys d else keys d ++ [k].
Proof.
  unfold keys. induction d as [|[k0 v0] d IH].
  - destruct (decide (k ∈ map fst ([] : dict K V))) as [Hin|_]; [|done].
    by apply elem_of_nil in Hin.
  - cbn [dict_set]. destruct (decide (k = k0)) as [->|Hne].
    + destruct (decide (k0 ∈ map fst ((k0, v0) :: d))) as [_|Hnin]; [done|].
      exfalso. apply Hnin, list_elem_of_here.
    + cbn [map fst]. rewrite IH.
      destruct (decide (k ∈ map fst d)) as [Hin|Hnin];
        destruct (decide (k ∈ k0 :: map fst d)) as [Hin'|Hnin']; try done.
      * exfalso. apply Hnin'. by apply list_elem_of_further.
      * apply elem_of_cons in Hin' as [?|?]; done.
Qed.

Lemma keys_set_NoDup k v d : NoDup (keys d) → NoDup (keys (dict_set k v d)).
Proof.
  intros Hnd. rewrite keys_set. destruct (decide (k ∈ keys d)); [done|].
  apply NoDup_app. split_and!; [done| |apply NoDup_singleton].
  intros x Hx ->%list_elem_of_singleton. done.
Qed.

Lemma dict_set_Forall (P : K * V → Prop) k v d :
  P (k, v) → Forall P d → Forall P (dict_set k v d).
Proof.
  intros Hp. induction 1 as [|[k0 v0] d Hx Hd IH]; simpl.
  - by constructor.
  - destruct (decide (k = k0)); constructor; auto.
Qed.
End dict_facts.

Lemma dict_sum_set {K} `{EqDecision K} (k : K) (v : Z) (d : dict K Z) :
  dict_sum (dict_set k v d) = dict_sum d - dict_get_default k 0 d + v.
Proof.
  unfold dict_sum, dict_get_default.
  induction d as [|[k0 v0] d IH]; simpl; [lia|].
  destruct (decide (k = k0)); simpl; [lia|]. rewrite IH. lia.
Qed.

(** ** Occurrence counts *)

Section occ_facts.
Context {A : Type} `{EqDecision A}.
Implicit Types (l : list A) (k : A).

Lemma occ_nonneg k l : 0 ≤ occ k l.
Proof. induction l; simpl; [lia|]. case_decide; lia. Qed.

Lemma occ_pos_elem_of k l : 0 < occ k l ↔ k ∈ l.
Proof.
  induction l as [|x l IH]; simpl.
  - split; [lia|]. intros []%elem_of_nil.
  - rewrite elem_of_cons. pose proof (occ_nonneg k l) as Hnn.
    destruct (decide (k = x)) as [->|Hne].
    + split; [by left|lia].
    + split.
      * intros Hpos. right. apply IH. lia.
      * intros [Heq|Hin]; [done|]. apply IH in Hin. lia.
Qed.

End occ_facts.

(** Counting through a map that is injective where it matters. *)
Lemma occ_map_inj {A B} `{EqDecision A, EqDecision B} (f : A → B) k (l : list A) :
  (∀ x, x ∈ l → f x = f k → x = k) →
  occ (f k) (map f l) = occ k l.
Proof.
  induction l as [|x l IH]; simpl; intros Hinj; [done|].
  rewrite IH by (intros; apply Hinj; [by apply list_elem_of_further|done]).
  destruct (decide (k = x)) as [->|Hne].
  - by rewrite decide_True.
  - rewrite decide_False; [done|]. intros Heq. apply Hne. symmetry.
    apply Hinj; [apply list_elem_of_here|done].
Qed.

(** ** The dictionary approach *)

Lemma fold_left_flat_map {S X Y} (f : S → Y → S) (g : X → list Y) xs st :
  fold_left f (flat_map g xs) st = fold_left (λ st x, fold_left f (g x) st) xs st.
Proof.
  revert st. induction xs as [|x xs IH]; intros st; simpl; [done|].
  by rewrite fold_left_app, IH.
Qed.

Lemma countBigramsSparse_bigrams words :
  countBigramsSparse words = fold_left sparse_step (sparse_bigrams words) [].
Proof.
  unfold countBigramsSparse, sparse_bigrams. by rewrite fold_left_flat_map.
Qed.

Lemma sparse_step_get k b p :
  dict_get k (sparse_step b p) =
    if decide (k = p) then Some (dict_get_default p 0 b + 1) else dict_get k b.
Proof. destruct p as [ch1 ch2]. unfold sparse_step. apply dict_get_set. Qed.

(** After the loop a key holds what it held before plus its number of
    occurrences; a key that was absent and never occurs stays absent. *)
Lemma sparse_fold_get k l b :
  dict_get k (fold_left sparse_step l b) =
    if decide (occ k l = 0) then dict_get k b
    else Some (dict_get_default k 0 b + occ k l).
Proof.
  revert b. induction l as [|p l IH]; intros b; cbn [fold_left occ].
  - by rewrite decide_True.
  - rewrite IH. pose proof (occ_nonneg k l) as Hnn.
    unfold dict_get_default. rewrite !sparse_step_get. unfold dict_get_default.
    destruct (decide (k = p)) as [Heq|Hne].
    + subst p. destruct (decide (1 + occ k l = 0)) as [?|_]; [lia|].
      destruct (decide (occ k l = 0)) as [->|?]; simpl;
        apply (f_equal Some); lia.
    + destruct (decide (occ k l = 0)) as [Hz|Hnz];
        destruct (decide (0 + occ k l = 0)) as [?|?]; try lia; [done|].
      apply (f_equal Some). lia.
Qed.

Lemma sparse_fold_sum l b :
  dict_sum (fold_left sparse_step l b) = dict_sum b + Z.of_nat (length l).
Proof.
  revert b. induction l as [|[ch1 ch2] l IH]; intros b; cbn [fold_left length].
  - lia.
  - rewrite IH. unfold sparse_step. rewrite dict_sum_set. lia.
Qed.

Lemma sparse_fold_keys_NoDup l b :
  NoDup (keys b) → NoDup (keys (fold_left sparse_step l b)).
Proof.
  revert b. induction l as [|[ch1 ch2] l IH]; intros b Hnd; cbn [fold_left].
  - done.
  - apply IH. unfold sparse_step. by apply keys_set_NoDup.
Qed.

Lemma sparse_fold_positive l b :
  Forall (λ kv, 1 ≤ kv.2) b → Forall (λ kv, 1 ≤ kv.2) (fold_left sparse_step l b).
Proof.
  revert b. induction l as [|[ch1 ch2] l IH]; intros b Hb; cbn [fold_left].
  - done.
  - apply IH. unfold sparse_step. apply dict_set_Forall; [|done]. simpl.
    unfold dict_get_default.
    destruct (dict_get (ch1, ch2) b) as [v|] eqn:Hg; simpl; [|lia].
    apply dict_get_elem_of in Hg. rewrite Forall_forall in Hb.
    specialize (Hb _ Hg). simpl in Hb. lia.
Qed.

Lemma length_list_str w : length (list_str w) = String.length w.
Proof.
  unfold list_str. rewrite length_map.
  induction w as [|c w IH]; simpl; [done|]. by rewrite IH.
Qed.

Lemma length_zip_next {A} (chs : list A) :
  length (zip_next chs) = pred (length chs).
Proof.
  unfold zip_next. rewrite length_zip. destruct chs; cbn [tail length pred]; lia.
Qed.

Lemma length_sparse_word_bigrams w :
  length (zip_next (sparse_chs w)) = S (String.length w).
Proof.
  rewrite length_zip_next. unfold sparse_chs.
  rewrite !length_app, length_list_str. simpl. lia.
Qed.

Lemma length_sparse_bigrams words :
  Z.of_nat (length (sparse_bigrams words)) = total_chars words + num_words words.
Proof.
  unfold sparse_bigrams, total_chars, num_words.
  induction words as [|w words IH]; cbn [flat_map map foldr length]; [done|].
  rewrite length_app, length_sparse_word_bigrams. lia.
Qed.

(** The table holds exactly the occurrence counts of the corpus. *)
Lemma countBigramsSparse_get words k :
  dict_get k (countBigramsSparse words) =
    if decide (occ k (sparse_bigrams words) = 0) then None
    else Some (occ k (sparse_bigrams words)).
Proof.
  rewrite countBigramsSparse_bigrams, sparse_fold_get.
  case_decide; [done|]. unfold dict_get_default. simpl. apply (f_equal Some). lia.
Qed.

Lemma countBigramsSparse_keys words k :
  k ∈ keys (countBigramsSparse words) ↔ k ∈ sparse_bigrams words.
Proof.
  rewrite <-dict_get_is_Some, countBigramsSparse_get, <-occ_pos_elem_of.
  pose proof (occ_nonneg k (sparse_bigrams words)).
  case_decide; split; intros Hx; try (by eexists); try lia.
  by destruct Hx.
Qed.

Lemma countBigramsSparse_keys_NoDup words :
  NoDup (keys (countBigramsSparse words)).
Proof.
  rewrite countBigramsSparse_bigrams. apply sparse_fold_keys_NoDup. constructor.
Qed.

Lemma sparse_total_count_sum words :
  dict_sum (countBigramsSparse words) = total_chars words + num_words words.
Proof.
  rewrite countBigramsSparse_bigrams, sparse_fold_sum.
  rewrite length_sparse_bigrams. unfold dict_sum. simpl. lia.
Qed.

(** C9: every key present in the table returned by [countBigramsSparse] has
    a count of at least 1; no entry holds zero. *)
Theorem sparse_counts_positive words k :
  k ∈ keys (countBigramsSparse words) →
  ∃ v, dict_get k (countBigramsSparse words) = Some v ∧ 1 ≤ v.
Proof.
  intros Hk. apply dict_get_is_Some in Hk as [v Hv]. exists v. split; [done|].
  apply dict_get_elem_of in Hv.
  assert (Forall (λ kv : bigram * Z, 1 ≤ kv.2) (countBigramsSparse words)) as Hall.
  { rewrite countBigramsSparse_bigrams. apply sparse_fold_positive. constructor. }
  rewrite Forall_forall in Hall. apply (Hall _ Hv).
Qed.

Lemma sparse_counts_positive_witness :
  ("a", "b") ∈ keys (countBigramsSparse ["ab"; "ba"])
  ∧ ∃ v, dict_get ("a", "b") (countBigramsSparse ["ab"; "ba"]) = Some v ∧ 1 ≤ v.
Proof.
  assert (("a", "b") ∈ keys (countBigramsSparse ["ab"; "ba"])) as Hin.
  { vm_compute. apply list_elem_of_further, list_elem_of_here. }
  split; [exact Hin|]. exact (sparse_counts_positive ["ab"; "ba"] ("a", "b") Hin).
Defined.

(** C10: the table built by the counting loop is a function of the word
    list alone: whatever [b] held before the cell runs, two runs on the same
    words end with identical tables, and running the cell again changes
    nothing. *)
Theorem count_cell_deterministic g1 g2 :
  g_words g1 = g_words g2 →
  g_b (count_cell g1) = g_b (count_cell g2)
  ∧ g_b (count_cell g1) = Some (countBigramsSparse (g_words g1))
  ∧ count_cell (count_cell g1) = count_cell g1.
Proof.
  intros Hw. unfold count_cell, countBigramsSparse. simpl. by rewrite Hw.
Qed.

Lemma count_cell_deterministic_witness :
  let g1 := {| g_words := ["ab"; "ba"]; g_b := None |} in
  let g2 := {| g_words := ["ab"; "ba"]; g_b := Some [(("x", "y"), 7)] |} in
  g_b (count_cell g1) = g_b (count_cell g2)
  ∧ g_b (count_cell g1) = Some (countBigramsSparse (g_words g1))
  ∧ count_cell (count_cell g1) = count_cell g1.
Proof.
  intros g1 g2. apply (count_cell_deterministic g1 g2). reflexivity.
Defined.

(** ** Order on lists *)

Lemma StronglySorted_weaken {A} (R R' : A → A → Prop) (l : list A) :
  (∀ x y, x ∈ l → y ∈ l → R x y → R' x y) →
  StronglySorted R l → StronglySorted R' l.
Proof.
  intros Himp Hs. induction Hs as [|x l Hs IH Hx]; constructor.
  - apply IH. intros a c Ha Hc. apply Himp; by apply list_elem_of_further.
  - apply Forall_forall. intros y Hy. rewrite Forall_forall in Hx.
    apply Himp; [apply list_elem_of_here|by apply list_elem_of_further|auto].
Qed.

Lemma StronglySorted_map_inv {A B} (f : A → B) (R : B → B → Prop) (l : list A) :
  StronglySorted R (map f l) → StronglySorted (λ x y, R (f x) (f y)) l.
Proof.
  induction l as [|x l IH]; simpl; intros Hs; [constructor|].
  apply StronglySorted_inv in Hs as [Hs Hx]. constructor; [auto|].
  apply Forall_forall. intros y Hy.
  rewrite Forall_forall in Hx. apply Hx. by apply list_elem_of_fmap_2.
Qed.

(** A strictly ascending list has no duplicates. *)
Lemma StronglySorted_irrefl_NoDup {A} (R : A → A → Prop) (l : list A) :
  (∀ x, ¬ R x x) → StronglySorted R l → NoDup l.
Proof.
  intros Hirr. induction 1 as [|x l Hs IH Hx]; constructor; [|done].
  intros Hin. rewrite Forall_forall in Hx. by apply (Hirr x), Hx.
Qed.

(** ** [sorted] *)

Section sorted_facts.
Context {A K : Type} `{EqDecision K} (key : A → K) (ltb : K → K → bool).
Implicit Types (x y : A) (l : list A).

Lemma sorted_insert_Permutation x l : sorted_insert key ltb x l ≡ₚ x :: l.
Proof.
  induction l as [|y l IH]; simpl; [done|].
  destruct (ltb (key y) (key x)); [|done].
  rewrite IH. apply perm_swap.
Qed.

Lemma sorted_Permutation l : sorted key ltb l ≡ₚ l.
Proof.
  induction l as [|x l IH]; simpl; [done|].
  by rewrite sorted_insert_Permutation, IH.
Qed.

Lemma length_sorted l : length (sorted key ltb l) = length l.
Proof. by rewrite sorted_Permutation. Qed.

Hypothesis ltb_asym : ∀ a b, ltb a b = true → ltb b a = false.
Hypothesis ltb_ntrans :
  ∀ a b c, ltb b a = false → ltb c b = false → ltb c a = false.

Lemma ltb_irrefl a : ltb a a = false.
Proof.
  destruct (ltb a a) eqn:Hlt; [|done].
  pose proof (ltb_asym _ _ Hlt). congruence.
Qed.

Lemma sorted_insert_StronglySorted x l :
  StronglySorted (may_precede key ltb) l →
  StronglySorted (may_precede key ltb) (sorted_insert key ltb x l).
Proof.
  induction 1 as [|y l Hl IH Hy]; simpl.
  - repeat constructor.
  - destruct (ltb (key y) (key x)) eqn:Hlt.
    + constructor; [done|].
      rewrite sorted_insert_Permutation. constructor; [|done].
      by apply ltb_asym.
    + constructor; [by constructor|]. constructor; [done|].
      eapply Forall_impl; [exact Hy|]. intros z Hz.
      unfold may_precede in *. by eapply ltb_ntrans.
Qed.

Lemma sorted_StronglySorted l : StronglySorted (may_precede key ltb) (sorted key ltb l).
Proof.
  induction l as [|x l IH]; simpl; [constructor|].
  by apply sorted_insert_StronglySorted.
Qed.

(** Stability: entries with equal keys keep their relative order. *)
Lemma sorted_insert_stable k0 x l :
  filter (λ a, key a = k0) (sorted_insert key ltb x l) =
  filter (λ a, key a = k0) (x :: l).
Proof.
  induction l as [|y l IH]; simpl; [done|].
  destruct (ltb (key y) (key x)) eqn:Hlt; [|done].
  rewrite !filter_cons in *.
  destruct (decide (key y = k0)) as [Hy|Hy]; [|done].
  destruct (decide (key x = k0)) as [Hx|Hx]; [|by rewrite IH].
  rewrite Hx, Hy, ltb_irrefl in Hlt. done.
Qed.

Lemma sorted_stable k0 l :
  filter (λ a, key a = k0) (sorted key ltb l) = filter (λ a, key a = k0) l.
Proof.
  induction l as [|x l IH]; simpl; [done|].
  rewrite sorted_insert_stable, !filter_cons. by rewrite IH.
Qed.
End sorted_facts.

(** ** Ranking the bigrams *)

Lemma sorted_bigrams_Permutation b : sorted_bigrams b ≡ₚ b.
Proof. apply sorted_Permutation. Qed.

Lemma sorted_bigrams_descending b :
  StronglySorted (λ x y, y.2 ≤ x.2) (sorted_bigrams b).
Proof.
  eapply StronglySorted_weaken;
    [|apply (sorted_StronglySorted (λ kv : bigram * Z, - kv.2) Z.ltb)].
  - unfold may_precede. intros x y _ _ Hxy. apply Z.ltb_ge in Hxy. lia.
  - intros a c Hac. apply Z.ltb_lt in Hac. apply Z.ltb_ge. lia.
  - intros a c d H1 H2. apply Z.ltb_ge in H1, H2. apply Z.ltb_ge. lia.
Qed.

Lemma sorted_bigrams_stable b c :
  filter (λ kv, kv.2 = c) (sorted_bigrams b) = filter (λ kv, kv.2 = c) b.
Proof.
  pose proof (sorted_stable (λ kv : bigram * Z, - kv.2) Z.ltb) as Hst.
  unfold sorted_bigrams.
  assert (∀ l : list (bigram * Z),
    filter (λ kv, kv.2 = c) l = filter (λ kv, - kv.2 = - c) l) as Hf.
  { intros l. apply list_filter_iff. intros kv. lia. }
  rewrite !Hf. apply Hst.
  intros a d Had. apply Z.ltb_lt in Had. apply Z.ltb_ge. lia.
Qed.

(** C5, as the code ranks: [topBigrams b k] is the first [min k (len b)]
    entries of the items of [b] ordered by count descending, and entries with
    equal counts keep the order in which their keys were first inserted into
    [b].  For [k = 0] the result is empty, for [k] at least the number of
    entries it is the whole ranking, which is a rearrangement of the items. *)
Theorem topBigrams_ranking (b : dict bigram Z) (k : nat) :
  topBigrams b k = take k (sorted_bigrams b)
  ∧ length (topBigrams b k) = Nat.min k (length b)
  ∧ sorted_bigrams b ≡ₚ b
  ∧ StronglySorted (λ x y, y.2 ≤ x.2) (sorted_bigrams b)
  ∧ (∀ c, filter (λ kv, kv.2 = c) (sorted_bigrams b) = filter (λ kv, kv.2 = c) b)
  ∧ topBigrams b 0 = []
  ∧ topBigrams b (length b + k) = sorted_bigrams b.
Proof.
  unfold topBigrams. split_and!.
  - done.
  - rewrite length_take. unfold sorted_bigrams. by rewrite length_sorted.
  - apply sorted_bigrams_Permutation.
  - apply sorted_bigrams_descending.
  - apply sorted_bigrams_stable.
  - done.
  - apply take_ge. unfold sorted_bigrams. rewrite length_sorted. lia.
Qed.

(** C5 as stated fails: for the words "b", "a" every bigram has count 1 and
    the code ranks [('<S>', 'b')] first, the key inserted first, where the
    ascending lexicographic tie-break puts [('<S>', 'a')] first. *)
Lemma topBigrams_not_lexicographic :
  let b := countBigramsSparse ["b"; "a"] in
  topBigrams b 1 = [(("<S>", "b"), 1)]
  ∧ topBigrams_lex b 1 = [(("<S>", "a"), 1)]
  ∧ topBigrams b 1 ≠ topBigrams_lex b 1.
Proof. vm_compute. split_and!; [done|done|]. intros [=]. Qed.

(** ** Strings and characters *)

Lemma string_ltb_asym (a b : string) : String.ltb a b = true → String.ltb b a = false.
Proof.
  unfold String.ltb. rewrite (String.compare_antisym b a).
  by destruct (String.compare a b).
Qed.

Lemma string_ltb_false_leb (a b : string) :
  String.ltb b a = false ↔ String.leb a b = true.
Proof.
  unfold String.ltb, String.leb. rewrite (String.compare_antisym b a).
  by destruct (String.compare a b).
Qed.

Lemma string_ltb_ntrans (a b c : string) :
  String.ltb b a = false → String.ltb c b = false → String.ltb c a = false.
Proof.
  rewrite !string_ltb_false_leb. intros Hab Hbc.
  apply Is_true_true. apply Is_true_true in Hab, Hbc.
  exact (transitivity (R := String.le) Hab Hbc).
Qed.

Lemma string_ltb_of_distinct (a b : string) :
  String.ltb b a = false → a ≠ b → String.ltb a b = true.
Proof.
  unfold String.ltb. rewrite (String.compare_antisym b a).
  destruct (String.compare a b) eqn:Hc; simpl; try done.
  intros _ Hne. by apply String.compare_eq_iff in Hc.
Qed.

Lemma char_str_ltb (a b : ascii) :
  String.ltb (char_str a) (char_str b) = true ↔ code_lt a b.
Proof.
  unfold String.ltb, char_str, code_lt, nat_of_ascii.
  cbn [String.compare]. unfold Ascii.compare.
  rewrite <-Nat.compare_lt_iff, <-N2Nat.inj_compare.
  destruct (N.compare (N_of_ascii a) (N_of_ascii b));
    simpl; split; intros Hx; done || discriminate Hx.
Qed.

#[local] Instance char_str_inj : Inj (=) (=) char_str.
Proof. intros a b [=]. done. Qed.

Lemma list_ascii_of_string_app (s1 s2 : string) :
  list_ascii_of_string (s1 +:+ s2) =
  list_ascii_of_string s1 ++ list_ascii_of_string s2.
Proof. induction s1 as [|c s1 IH]; simpl; [done|]. by rewrite <-IH. Qed.

Lemma elem_of_concat_chars (c : ascii) (words : list string) :
  c ∈ list_ascii_of_string (String.concat "" words) ↔
  ∃ w, w ∈ words ∧ c ∈ list_ascii_of_string w.
Proof.
  induction words as [|w words IH].
  - simpl. split; [intros []%elem_of_nil|]. intros (w & []%elem_of_nil & _).
  - assert (String.concat "" (w :: words) = w +:+ String.concat "" words) as ->.
    { destruct words as [|w' words]; simpl; [|done].
      induction w as [|a w IHw]; [done|].
      change (String a w +:+ "") with (String a (w +:+ "")). by rewrite <-IHw. }
    rewrite list_ascii_of_string_app, elem_of_app, IH. split.
    + intros [Hc|(w' & Hw' & Hc)].
      * exists w. split; [apply list_elem_of_here|done].
      * exists w'. split; [by apply list_elem_of_further|done].
    + intros (w' & Hw' & Hc). apply elem_of_cons in Hw' as [->|Hw'].
      * by left.
      * right. by exists w'.
Qed.

Lemma elem_of_list_str (s w : string) :
  s ∈ list_str w ↔ ∃ c, s = char_str c ∧ c ∈ list_ascii_of_string w.
Proof. unfold list_str. rewrite list_elem_of_fmap. done. Qed.

(** ** Deriving the alphabet *)

Lemma elem_of_deriveAlphabet (s : string) (words : list string) :
  s ∈ deriveAlphabet words ↔
  ∃ c w, s = char_str c ∧ w ∈ words ∧ c ∈ list_ascii_of_string w.
Proof.
  unfold deriveAlphabet, py_set.
  rewrite sorted_Permutation, elem_of_elements, elem_of_list_to_set.
  rewrite elem_of_list_str. setoid_rewrite elem_of_concat_chars. split.
  - intros (c & -> & w & Hw & Hc). by exists c, w.
  - intros (c & w & -> & Hw & Hc). exists c. split; [done|]. by exists w.
Qed.

Lemma deriveAlphabet_NoDup words : NoDup (deriveAlphabet words).
Proof.
  unfold deriveAlphabet. rewrite sorted_Permutation. apply NoDup_elements.
Qed.

Lemma deriveAlphabet_ascending words :
  StronglySorted (λ a b, String.ltb a b = true) (deriveAlphabet words).
Proof.
  pose proof (deriveAlphabet_NoDup words) as Hnd.
  assert (StronglySorted (may_precede id String.ltb) (deriveAlphabet words)) as Hs.
  { apply sorted_StronglySorted; [apply string_ltb_asym|apply string_ltb_ntrans]. }
  induction Hs as [|a l Hs IH Ha]; constructor.
  - apply IH. by apply NoDup_cons_1_2 in Hnd.
  - apply NoDup_cons in Hnd as [Hnin _].
    apply Forall_forall. intros y Hy. rewrite Forall_forall in Ha.
    apply string_ltb_of_distinct; [by apply Ha|]. by intros ->.
Qed.

Lemma chars_of_char_strs (l : list string) :
  (∀ s, s ∈ l → ∃ c, s = char_str c) → ∃ cs, l = map char_str cs.
Proof.
  induction l as [|s l IH]; intros Hall; [by exists []|].
  destruct (Hall s) as [c ->]; [apply list_elem_of_here|].
  destruct IH as [cs ->]; [intros; by apply Hall, list_elem_of_further|].
  by exists (c :: cs).
Qed.

(** C7: [deriveAlphabet] returns the distinct characters occurring in the
    words, each once, in ascending code-point order. *)
Theorem deriveAlphabet_sorted_distinct (words : list string) :
  ∃ cs : list ascii,
    deriveAlphabet words = map char_str cs
    ∧ StronglySorted code_lt cs
    ∧ NoDup cs
    ∧ ∀ c, c ∈ cs ↔ ∃ w, w ∈ words ∧ c ∈ list_ascii_of_string w.
Proof.
  destruct (chars_of_char_strs (deriveAlphabet words)) as [cs Hcs].
  { intros s (c & w & -> & _)%elem_of_deriveAlphabet. by exists c. }
  assert (StronglySorted code_lt cs) as Hsorted.
  { pose proof (deriveAlphabet_ascending words) as Hs. rewrite Hcs in Hs.
    apply StronglySorted_map_inv in Hs.
    eapply StronglySorted_weaken; [|exact Hs].
    intros x y _ _. apply char_str_ltb. }
  exists cs. split_and!; [done|done| |].
  - eapply StronglySorted_irrefl_NoDup; [|exact Hsorted].
    intros x. unfold code_lt. lia.
  - intros c. rewrite <-(list_elem_of_fmap_inj char_str).
    change (char_str <$> cs) with (map char_str cs). rewrite <-Hcs.
    rewrite elem_of_deriveAlphabet. split.
    + intros (c' & w & Heq%char_str_inj & Hw & Hc). subst c'. by exists w.
    + intros (w & Hw & Hc). by exists c, w.
Qed.

(** ** The index mappings [stoi] and [itos] *)

Lemma stoi_fold_get l d s i :
  dict_get s (fold_left stoi_step l d) = Some i → (i, s) ∈ l ∨ dict_get s d = Some i.
Proof.
  revert d. induction l as [|[i0 s0] l IH]; intros d; cbn [fold_left]; [by right|].
  intros [Hin|Hg]%IH; [left; by apply list_elem_of_further|].
  unfold stoi_step in Hg. rewrite dict_get_set in Hg.
  destruct (decide (s = s0)) as [->|]; [|by right].
  injection Hg as ->. left. apply list_elem_of_here.
Qed.

Lemma stoi_fold_is_Some l d s :
  is_Some (dict_get s (fold_left stoi_step l d)) ↔ s ∈ l.*2 ∨ is_Some (dict_get s d).
Proof.
  revert d. induction l as [|[i0 s0] l IH]; intros d; cbn [fold_left].
  - split; [by right|]. intros [[]%elem_of_nil|]; done.
  - rewrite IH. cbn [stoi_step]. rewrite dict_get_set.
    cbn [fmap list_fmap snd]. rewrite elem_of_cons.
    destruct (decide (s = s0)) as [->|Hne].
    + split; [by left; left|]. intros _. right. by eexists.
    + split; [intros [?|?]; [left; by right|by right]|].
      intros [[?|?]|?]; [done|by left|by right].
Qed.

Lemma stoi_fold_keys_NoDup l d :
  NoDup (keys d) → NoDup (keys (fold_left stoi_step l d)).
Proof.
  revert d. induction l as [|[i0 s0] l IH]; intros d Hnd; cbn [fold_left]; [done|].
  apply IH. unfold stoi_step. by apply keys_set_NoDup.
Qed.


Lemma elem_of_enumerate {A} (l : list A) i x :
  (i, x) ∈ enumerate l ↔ l !! i = Some x.
Proof.
  unfold enumerate. split.
  - intros (j & i' & x' & [= -> ->] & [-> _]%lookup_seq & Hx)%elem_of_lookup_zip_with.
    done.
  - intros Hx. apply elem_of_lookup_zip_with. exists i, i, x. split_and!; [done| |done].
    apply lookup_seq. split; [done|]. by eapply lookup_lt_Some.
Qed.

Lemma enumerate_snd {A} (l : list A) : (enumerate l).*2 = l.
Proof. unfold enumerate. apply snd_zip. by rewrite length_seq. Qed.

Lemma make_stoi_lookup chars s i :
  dict_get s (make_stoi chars) = Some i → chars !! i = Some s.
Proof.
  unfold make_stoi. intros [Hin|Hg]%stoi_fold_get; [|done].
  by apply elem_of_enumerate.
Qed.

Lemma make_stoi_is_Some chars s :
  is_Some (dict_get s (make_stoi chars)) ↔ s ∈ chars.
Proof.
  unfold make_stoi. rewrite stoi_fold_is_Some, enumerate_snd. split.
  - intros [?|[? [=]]]. done.
  - by left.
Qed.

Lemma make_stoi_lt chars s i :
  dict_get s (make_stoi chars) = Some i → (i < length chars)%nat.
Proof. intros Hg%make_stoi_lookup. by eapply lookup_lt_Some. Qed.

(** Distinct symbols have distinct indices, also when [chars] repeats a
    symbol. *)
Lemma make_stoi_inj chars s1 s2 i :
  dict_get s1 (make_stoi chars) = Some i →
  dict_get s2 (make_stoi chars) = Some i → s1 = s2.
Proof. intros H1%make_stoi_lookup H2%make_stoi_lookup. congruence. Qed.

Lemma make_stoi_keys_NoDup chars : NoDup (keys (make_stoi chars)).
Proof. unfold make_stoi. apply stoi_fold_keys_NoDup. constructor. Qed.

Lemma make_stoi_boundary alphabet :
  "." ∉ alphabet → dict_get "." (make_stoi ("." :: alphabet)) = Some 0%nat.
Proof.
  intros Hnin.
  destruct (proj2 (make_stoi_is_Some ("." :: alphabet) ".")) as [i Hi];
    [apply list_elem_of_here|].
  rewrite Hi. f_equal. apply make_stoi_lookup in Hi.
  destruct i as [|i]; [done|]. simpl in Hi.
  exfalso. apply Hnin. by eapply list_elem_of_lookup_2.
Qed.





(** ** The count matrix *)

Lemma wrap64_small z : - 2 ^ 63 ≤ z < 2 ^ 63 → wrap64 z = z.
Proof. intros Hz. unfold wrap64. rewrite Z.mod_small; lia. Qed.

Lemma wrap64_range z : - 2 ^ 63 ≤ wrap64 z < 2 ^ 63.
Proof.
  unfold wrap64. pose proof (Z.mod_pos_bound (z + 2 ^ 63) (2 ^ 64)). lia.
Qed.

Lemma wrap64_add_l a c : wrap64 (wrap64 a + c) = wrap64 (a + c).
Proof.
  unfold wrap64. f_equal.
  replace ((a + 2 ^ 63) mod 2 ^ 64 - 2 ^ 63 + c + 2 ^ 63)
    with ((a + 2 ^ 63) mod 2 ^ 64 + c) by lia.
  rewrite Zplus_mod_idemp_l. f_equal. lia.
Qed.

Lemma sum_list_insert (l : list Z) j x y :
  l !! j = Some x → foldr Z.add 0 (<[j:=y]> l) = foldr Z.add 0 l - x + y.
Proof.
  revert j. induction l as [|a l IH]; intros [|j] Hj; simpl in *; try done.
  - injection Hj as ->. lia.
  - rewrite (IH _ Hj). lia.
Qed.

Lemma np_zeros_shape n m : shape (np_zeros n m) n m.
Proof.
  unfold np_zeros. split; [apply length_replicate|].
  apply Forall_forall. intros row [-> _]%elem_of_replicate.
  apply length_replicate.
Qed.

Lemma np_zeros_cell n m i j :
  (i < n)%nat → (j < m)%nat → cell (np_zeros n m) i j = Some 0.
Proof.
  intros Hi Hj. unfold cell, np_zeros.
  rewrite lookup_replicate_2 by done. by apply lookup_replicate_2.
Qed.

Lemma np_zeros_sum n m : mat_sum (np_zeros n m) = 0.
Proof.
  unfold mat_sum, np_zeros.
  assert (foldr Z.add 0 (replicate m 0) = 0) as Hrow.
  { induction m as [|m IH]; simpl; [done|]. by rewrite IH. }
  induction n as [|n IH]; simpl; [done|]. rewrite Hrow, IH. done.
Qed.

Lemma cell_lt N n m i j x :
  shape N n m → cell N i j = Some x → (i < n)%nat ∧ (j < m)%nat.
Proof.
  intros [Hlen Hrows]. unfold cell.
  destruct (N !! i) as [row|] eqn:Hrow; [|done]. intros Hx. split.
  - rewrite <-Hlen. by eapply lookup_lt_Some.
  - rewrite Forall_forall in Hrows.
    rewrite <-(Hrows row) by (by eapply list_elem_of_lookup_2).
    by eapply lookup_lt_Some.
Qed.

Lemma cell_is_Some N n m i j :
  shape N n m → (i < n)%nat → (j < m)%nat → is_Some (cell N i j).
Proof.
  intros [Hlen Hrows] Hi Hj. unfold cell.
  destruct (lookup_lt_is_Some_2 N i) as [row Hrow]; [lia|]. rewrite Hrow.
  apply lookup_lt_is_Some_2. rewrite Forall_forall in Hrows.
  rewrite (Hrows row) by (by eapply list_elem_of_lookup_2). done.
Qed.

(** [N[i, j] += 1] on a cell inside the array: the cell becomes the wrapped
    successor, every other cell and the shape are unchanged. *)
Lemma incr_cell_spec N n m i j x :
  shape N n m → cell N i j = Some x →
  ∃ N', incr_cell N i j = Ok N'
    ∧ shape N' n m
    ∧ cell N' i j = Some (wrap64 (x + 1))
    ∧ (∀ i' j', (i', j') ≠ (i, j) → cell N' i' j' = cell N i' j')
    ∧ mat_sum N' = mat_sum N - x + wrap64 (x + 1).
Proof.
  intros [Hlen Hrows] Hx. unfold cell in Hx. unfold incr_cell.
  destruct (N !! i) as [row|] eqn:Hrow; [|done]. rewrite Hx.
  pose proof (lookup_lt_Some _ _ _ Hrow) as Hi.
  pose proof (lookup_lt_Some _ _ _ Hx) as Hj.
  eexists. split; [done|]. split_and!.
  - split; [by rewrite length_insert|].
    apply Forall_insert; [done|]. rewrite length_insert.
    rewrite Forall_forall in Hrows. apply Hrows. by eapply list_elem_of_lookup_2.
  - unfold cell. rewrite list_lookup_insert_eq by done.
    by rewrite list_lookup_insert_eq.
  - intros i' j' Hne. unfold cell.
    destruct (decide (i = i')) as [<-|Hi'].
    + rewrite list_lookup_insert_eq, Hrow by done.
      apply list_lookup_insert_ne. congruence.
    + by rewrite list_lookup_insert_ne.
  - unfold mat_sum.
    change (map (foldr Z.add 0) (<[i:=<[j:=wrap64 (x + 1)]> row]> N))
      with (foldr Z.add 0 <$> <[i:=<[j:=wrap64 (x + 1)]> row]> N).
    rewrite list_fmap_insert.
    rewrite (sum_list_insert _ i (foldr Z.add 0 row)).
    + rewrite (sum_list_insert row j x) by done.
      change (foldr Z.add 0 <$> N) with (map (foldr Z.add 0) N). lia.
    + by rewrite list_lookup_fmap, Hrow.
Qed.

(** ** The fill loop *)

Lemma for_each_app {S X} (body : S → X → result S) l1 l2 st :
  for_each body (l1 ++ l2) st = bind (for_each body l1 st) (for_each body l2).
Proof.
  revert st. induction l1 as [|x l1 IH]; intros st; simpl; [done|].
  destruct (body st x); simpl; [apply IH|done].
Qed.

Lemma for_each_flat_map {S X Y} (body : S → Y → result S) (g : X → list Y) xs st :
  for_each (λ st x, for_each body (g x) st) xs st =
  for_each body (flat_map g xs) st.
Proof.
  revert st. induction xs as [|x xs IH]; intros st; simpl; [done|].
  rewrite for_each_app. destruct (for_each body (g x) st); simpl; [apply IH|done].
Qed.



Lemma fill_dense_bigrams stoi words N :
  for_each (dense_word stoi) words N =
  for_each (dense_step stoi) (dense_bigrams words) N.
Proof. unfold dense_bigrams. by rewrite <-for_each_flat_map. Qed.

Section fill.
Context (stoi : dict string nat) (n : nat).

Lemma dense_step_indexed N p i j :
  dict_get p.1 stoi = Some i → dict_get p.2 stoi = Some j →
  dense_step stoi N p = incr_cell N i j.
Proof.
  destruct p as [ch1 ch2]. simpl. intros H1 H2.
  unfold dense_step, dict_getitem. by rewrite H1, H2.
Qed.

(** When every symbol has an index the loop never raises. *)
Lemma fill_ok l N0 :
  shape N0 n n → (∀ p, p ∈ l → indexed stoi n p) →
  ∃ N', for_each (dense_step stoi) l N0 = Ok N' ∧ shape N' n n.
Proof.
  revert N0. induction l as [|p l IH]; intros N0 Hshape Hidx; simpl.
  - by exists N0.
  - destruct (Hidx p) as (i & j & Hi & Hj & Hin & Hjn); [apply list_elem_of_here|].
    destruct (cell_is_Some N0 n n i j) as [x Hx]; [done..|].
    destruct (incr_cell_spec N0 n n i j x) as (N1 & Hstep & Hshape1 & _); [done..|].
    rewrite (dense_step_indexed N0 p i j), Hstep by done. simpl.
    apply IH; [done|]. intros q Hq. by apply Hidx, list_elem_of_further.
Qed.


(** Below the 64-bit range the loop adds to every cell the number of
    bigram occurrences that carry its index pair. *)
Lemma fill_count l N0 :
  shape N0 n n → (∀ p, p ∈ l → indexed stoi n p) →
  (∀ i j x, cell N0 i j = Some x → 0 ≤ x ∧ x + Z.of_nat (length l) < 2 ^ 63) →
  ∃ N', for_each (dense_step stoi) l N0 = Ok N'
    ∧ shape N' n n
    ∧ (∀ i j, cell N' i j =
         (λ x, x + occ (Some i, Some j) (map (idx_pair stoi) l)) <$> cell N0 i j)
    ∧ mat_sum N' = mat_sum N0 + Z.of_nat (length l).
Proof.
  revert N0. induction l as [|p l IH]; intros N0 Hshape Hidx Hbound.
  - exists N0. split_and!; [done|done| |simpl; lia].
    intros i j. simpl. destruct (cell N0 i j); simpl; [|done].
    apply (f_equal Some); lia.
  - destruct (Hidx p) as (i & j & Hi & Hj & Hin & Hjn); [apply list_elem_of_here|].
    destruct (cell_is_Some N0 n n i j) as [x Hx]; [done..|].
    destruct (incr_cell_spec N0 n n i j x)
      as (N1 & Hstep & Hshape1 & Hij & Hother & Hsum); [done..|].
    destruct (Hbound i j x Hx) as [Hx0 Hxb]. cbn [length] in Hxb.
    rewrite wrap64_small in Hij, Hsum by lia.
    destruct (IH N1) as (N' & Hrun & Hshape' & Hcells & Hsum').
    { done. }
    { intros q Hq. by apply Hidx, list_elem_of_further. }
    { intros i' j' x' Hx'. destruct (decide ((i', j') = (i, j))) as [[= -> ->]|Hne].
      - rewrite Hij in Hx'. injection Hx' as <-. lia.
      - rewrite Hother in Hx' by done.
        destruct (Hbound i' j' x' Hx') as [? Hb]. cbn [length] in Hb. lia. }
    exists N'. cbn [for_each].
    rewrite (dense_step_indexed N0 p i j), Hstep by done. cbn [bind].
    split_and!; [done|done| |cbn [length]; lia].
    assert (idx_pair stoi p = (Some i, Some j)) as Hp.
    { unfold idx_pair. by rewrite Hi, Hj. }
    intros i' j'. rewrite Hcells. cbn [map occ]. rewrite Hp.
    destruct (decide ((i', j') = (i, j))) as [[= -> ->]|Hne].
    + rewrite Hij, Hx. simpl. rewrite decide_True by done. apply (f_equal Some); lia.
    + rewrite Hother by done. destruct (cell N0 i' j'); simpl; [|done].
      rewrite decide_False by congruence. apply (f_equal Some); lia.
Qed.

(** Without a bound on the corpus the cells hold the counts modulo the
    64-bit range. *)
Lemma fill_wrap l N0 :
  shape N0 n n → (∀ p, p ∈ l → indexed stoi n p) →
  (∀ i j x, cell N0 i j = Some x → - 2 ^ 63 ≤ x < 2 ^ 63) →
  ∃ N', for_each (dense_step stoi) l N0 = Ok N'
    ∧ shape N' n n
    ∧ ∀ i j, cell N' i j =
        (λ x, wrap64 (x + occ (Some i, Some j) (map (idx_pair stoi) l)))
          <$> cell N0 i j.
Proof.
  revert N0. induction l as [|p l IH]; intros N0 Hshape Hidx Hrange.
  - exists N0. split_and!; [done|done|].
    intros i j. simpl. destruct (cell N0 i j) as [x|] eqn:Hx; simpl; [|done].
    apply (f_equal Some). rewrite wrap64_small; [lia|].
    pose proof (Hrange i j x Hx). lia.
  - destruct (Hidx p) as (i & j & Hi & Hj & Hin & Hjn); [apply list_elem_of_here|].
    destruct (cell_is_Some N0 n n i j) as [x Hx]; [done..|].
    destruct (incr_cell_spec N0 n n i j x)
      as (N1 & Hstep & Hshape1 & Hij & Hother & _); [done..|].
    destruct (IH N1) as (N' & Hrun & Hshape' & Hcells).
    { done. }
    { intros q Hq. by apply Hidx, list_elem_of_further. }
    { intros i' j' x' Hx'. destruct (decide ((i', j') = (i, j))) as [[= -> ->]|Hne].
      - rewrite Hij in Hx'. injection Hx' as <-. apply wrap64_range.
      - rewrite Hother in Hx' by done. by eapply Hrange. }
    exists N'. cbn [for_each].
    rewrite (dense_step_indexed N0 p i j), Hstep by done. cbn [bind].
    split_and!; [done|done|].
    assert (idx_pair stoi p = (Some i, Some j)) as Hp.
    { unfold idx_pair. by rewrite Hi, Hj. }
    intros i' j'. rewrite Hcells. cbn [map occ]. rewrite Hp.
    destruct (decide ((i', j') = (i, j))) as [[= -> ->]|Hne].
    + rewrite Hij, Hx. simpl. rewrite decide_True by done.
      apply (f_equal Some). rewrite wrap64_add_l. f_equal; lia.
    + rewrite Hother by done. destruct (cell N0 i' j'); simpl; [|done].
      rewrite decide_False by congruence. apply (f_equal Some). f_equal; lia.
Qed.
End fill.

(** ** The symbols of the corpus *)

Lemma zip_next_fst {A} (a : A) l e : (zip_next (a :: l ++ [e])).*1 = a :: l.
Proof.
  unfold zip_next. revert a. induction l as [|b l IH]; intros a; [done|].
  cbn [tail] in *. cbn. f_equal. apply IH.
Qed.

Lemma zip_next_snd {A} (a : A) l e : (zip_next (a :: l ++ [e])).*2 = l ++ [e].
Proof.
  unfold zip_next. revert a. induction l as [|b l IH]; intros a; [done|].
  cbn [tail] in *. cbn. f_equal. apply IH.
Qed.

Lemma zip_next_map {A B} (f : A → B) (l : list A) :
  zip_next (map f l) = map (prod_map f f) (zip_next l).
Proof.
  unfold zip_next. destruct l as [|a l]; [done|]. cbn [map tail].
  revert a. induction l as [|b l IH]; intros a; [done|].
  cbn. f_equal. apply IH.
Qed.

Lemma elem_of_flat_map {A B} (f : A → list B) (l : list A) (y : B) :
  y ∈ flat_map f l ↔ ∃ x, x ∈ l ∧ y ∈ f x.
Proof.
  rewrite list_elem_of_In, in_flat_map.
  split; intros (x & Hx & Hy); exists x; by rewrite ?list_elem_of_In in *.
Qed.

Lemma elem_of_dense_bigrams words p :
  p ∈ dense_bigrams words →
  (p.1 = "." ∨ corpus_symbol words p.1) ∧ (p.2 = "." ∨ corpus_symbol words p.2).
Proof.
  unfold dense_bigrams. intros (w & Hw & Hp)%elem_of_flat_map. split.
  - apply (list_elem_of_fmap_2 fst) in Hp. change (dense_chs w) with ("." :: list_str w ++ ["."]) in Hp.
    rewrite (zip_next_fst "." (list_str w) ".") in Hp.
    apply elem_of_cons in Hp as [?|(c & ? & ?)%elem_of_list_str]; [by left|].
    right. by exists w, c.
  - apply (list_elem_of_fmap_2 snd) in Hp. change (dense_chs w) with ("." :: list_str w ++ ["."]) in Hp.
    rewrite (zip_next_snd "." (list_str w) ".") in Hp.
    apply elem_of_app in Hp as [(c & ? & ?)%elem_of_list_str|?%list_elem_of_singleton];
      [|by left].
    right. by exists w, c.
Qed.


Lemma elem_of_sparse_bigrams words p :
  p ∈ sparse_bigrams words →
  (p.1 = "<S>" ∨ corpus_symbol words p.1) ∧ (p.2 = "<E>" ∨ corpus_symbol words p.2).
Proof.
  unfold sparse_bigrams. intros (w & Hw & Hp)%elem_of_flat_map. split.
  - apply (list_elem_of_fmap_2 fst) in Hp. change (sparse_chs w) with ("<S>" :: list_str w ++ ["<E>"]) in Hp.
    rewrite (zip_next_fst "<S>" (list_str w) "<E>") in Hp.
    apply elem_of_cons in Hp as [?|(c & ? & ?)%elem_of_list_str]; [by left|].
    right. by exists w, c.
  - apply (list_elem_of_fmap_2 snd) in Hp. change (sparse_chs w) with ("<S>" :: list_str w ++ ["<E>"]) in Hp.
    rewrite (zip_next_snd "<S>" (list_str w) "<E>") in Hp.
    apply elem_of_app in Hp as [(c & ? & ?)%elem_of_list_str|?%list_elem_of_singleton];
      [|by left].
    right. by exists w, c.
Qed.

Lemma to_dot_char_str c : to_dot (char_str c) = char_str c.
Proof. unfold to_dot, char_str. by rewrite !decide_False by (intros [=]). Qed.

(** The fill loop visits the bigrams of the dictionary approach with the
    start and end tokens read as the boundary symbol. *)
Lemma dense_bigrams_to_dot words :
  dense_bigrams words = map (prod_map to_dot to_dot) (sparse_bigrams words).
Proof.
  unfold dense_bigrams, sparse_bigrams.
  induction words as [|w words IH]; [done|]. cbn [flat_map].
  rewrite map_app, <-IH. f_equal.
  rewrite <-zip_next_map. f_equal. unfold sparse_chs, dense_chs.
  rewrite !map_app. cbn [map]. f_equal. f_equal.
  unfold list_str. rewrite map_map. apply map_ext. intros c.
  by rewrite to_dot_char_str.
Qed.

Lemma length_dense_bigrams words :
  Z.of_nat (length (dense_bigrams words)) = total_chars words + num_words words.
Proof.
  by rewrite dense_bigrams_to_dot, length_map, length_sparse_bigrams.
Qed.

(** ** The 2D array approach *)

Lemma dense_bigrams_indexed words alphabet :
  (∀ w, w ∈ words → drawn_from ("." :: alphabet) w) →
  ∀ p, p ∈ dense_bigrams words →
    indexed (make_stoi ("." :: alphabet)) (length ("." :: alphabet)) p.
Proof.
  intros Hdrawn p Hp.
  assert (∀ s, s = "." ∨ corpus_symbol words s →
    ∃ i, dict_get s (make_stoi ("." :: alphabet)) = Some i
         ∧ (i < length ("." :: alphabet))%nat) as Hsym.
  { intros s Hs.
    destruct (proj2 (make_stoi_is_Some ("." :: alphabet) s)) as [i Hi].
    - destruct Hs as [->|(w & c & Hw & Hc & ->)]; [apply list_elem_of_here|].
      by apply (Hdrawn w).
    - exists i. split; [done|]. by eapply make_stoi_lt. }
  apply elem_of_dense_bigrams in Hp as [H1 H2].
  destruct (Hsym _ H1) as (i & Hi & Hin), (Hsym _ H2) as (j & Hj & Hjn).
  by exists i, j.
Qed.

Lemma countBigramsDense_unfold words alphabet :
  countBigramsDense words alphabet =
    let chars := "." :: alphabet in
    N ← for_each (dense_step (make_stoi chars)) (dense_bigrams words)
          (np_zeros (length chars) (length chars));
    Ok {| tbl_chars := chars; tbl_stoi := make_stoi chars;
          tbl_itos := make_itos (make_stoi chars); tbl_N := N |}.
Proof. unfold countBigramsDense. cbn zeta. by rewrite fill_dense_bigrams. Qed.

Lemma countBigramsDense_ok words alphabet :
  (∀ w, w ∈ words → drawn_from ("." :: alphabet) w) →
  ∃ N, countBigramsDense words alphabet =
         Ok {| tbl_chars := "." :: alphabet;
               tbl_stoi := make_stoi ("." :: alphabet);
               tbl_itos := make_itos (make_stoi ("." :: alphabet));
               tbl_N := N |}
       ∧ shape N (length ("." :: alphabet)) (length ("." :: alphabet)).
Proof.
  intros Hdrawn. rewrite countBigramsDense_unfold. cbn zeta.
  destruct (fill_ok (make_stoi ("." :: alphabet)) (length ("." :: alphabet))
    (dense_bigrams words)
    (np_zeros (length ("." :: alphabet)) (length ("." :: alphabet))))
    as (N & -> & Hshape).
  - apply np_zeros_shape.
  - by apply dense_bigrams_indexed.
  - by exists N.
Qed.


Lemma deriveAlphabet_drawn words w :
  w ∈ words → drawn_from ("." :: deriveAlphabet words) w.
Proof.
  intros Hw c Hc. apply list_elem_of_further, elem_of_deriveAlphabet.
  by exists c, w.
Qed.












(** ** Agreement of the two representations *)

Section agreement.
Context (words alphabet : list string).
Hypothesis boundary_fresh : "." ∉ alphabet.
Hypothesis words_drawn : ∀ w, w ∈ words → drawn_from alphabet w.

Lemma words_drawn_boundary w : w ∈ words → drawn_from ("." :: alphabet) w.
Proof. intros Hw c Hc. apply list_elem_of_further. by apply (words_drawn w). Qed.

Lemma corpus_symbol_alphabet s : corpus_symbol words s → s ∈ alphabet.
Proof. intros (w & c & Hw & Hc & ->). by apply (words_drawn w). Qed.

Lemma corpus_symbol_to_dot s : corpus_symbol words s → to_dot s = s ∧ s ≠ ".".
Proof.
  intros Hs. split.
  - destruct Hs as (w & c & _ & _ & ->). apply to_dot_char_str.
  - intros ->. by apply boundary_fresh, corpus_symbol_alphabet.
Qed.

(** On the symbols that can stand on one side of a bigram, the index is
    defined and injective; [t] is the start or the end token. *)
Lemma sym_index_is_Some t a :
  to_dot t = "." → a = t ∨ corpus_symbol words a → is_Some (sym_index (make_stoi ("." :: alphabet)) a).
Proof.
  intros Ht Ha. unfold sym_index. apply make_stoi_is_Some.
  destruct Ha as [->|Ha].
  - rewrite Ht. apply list_elem_of_here.
  - rewrite (proj1 (corpus_symbol_to_dot a Ha)).
    by apply list_elem_of_further, corpus_symbol_alphabet.
Qed.

Lemma sym_index_inj t a a' :
  to_dot t = "." →
  a = t ∨ corpus_symbol words a → a' = t ∨ corpus_symbol words a' →
  sym_index (make_stoi ("." :: alphabet)) a = sym_index (make_stoi ("." :: alphabet)) a' → a = a'.
Proof.
  intros Ht Ha Ha' Heq.
  destruct (sym_index_is_Some t a Ht Ha) as [i Hi].
  assert (to_dot a = to_dot a') as Hdot.
  { unfold sym_index in *. eapply make_stoi_inj; [exact Hi|].
    by rewrite <-Heq. }
  destruct Ha as [->|Ha], Ha' as [->|Ha']; [done| | |].
  - apply corpus_symbol_to_dot in Ha' as [Hid Hne]. congruence.
  - apply corpus_symbol_to_dot in Ha as [Hid Hne]. congruence.
  - apply corpus_symbol_to_dot in Ha as [Hid _].
    apply corpus_symbol_to_dot in Ha' as [Hid' _]. congruence.
Qed.

Lemma idx_pair_to_dot (q : string * string) :
  idx_pair (make_stoi ("." :: alphabet)) (prod_map to_dot to_dot q) =
  (sym_index (make_stoi ("." :: alphabet)) q.1, sym_index (make_stoi ("." :: alphabet)) q.2).
Proof. by destruct q. Qed.

(** An index pair is visited by the fill loop as often as the bigram that
    carries it occurs in the dictionary approach. *)
Lemma occ_idx_pair p :
  p ∈ sparse_bigrams words →
  occ (sym_index (make_stoi ("." :: alphabet)) p.1, sym_index (make_stoi ("." :: alphabet)) p.2)
      (map (idx_pair (make_stoi ("." :: alphabet))) (dense_bigrams words)) =
  occ p (sparse_bigrams words).
Proof.
  intros Hp. rewrite dense_bigrams_to_dot, map_map.
  rewrite (map_ext _ (λ q, (sym_index (make_stoi ("." :: alphabet)) q.1, sym_index (make_stoi ("." :: alphabet)) q.2)))
    by apply idx_pair_to_dot.
  apply (occ_map_inj (λ q : string * string, (sym_index (make_stoi ("." :: alphabet)) q.1, sym_index (make_stoi ("." :: alphabet)) q.2))).
  intros [a b] Hq [= H1 H2]. destruct p as [a' b'].
  apply elem_of_sparse_bigrams in Hp as [Hp1 Hp2].
  apply elem_of_sparse_bigrams in Hq as [Hq1 Hq2]. simpl in *.
  f_equal.
  - by apply (sym_index_inj "<S>").
  - by apply (sym_index_inj "<E>").
Qed.

Lemma idx_pair_visited i j :
  occ (Some i, Some j) (map (idx_pair (make_stoi ("." :: alphabet))) (dense_bigrams words)) ≠ 0 →
  ∃ p, p ∈ sparse_bigrams words
       ∧ sym_index (make_stoi ("." :: alphabet)) p.1 = Some i ∧ sym_index (make_stoi ("." :: alphabet)) p.2 = Some j.
Proof.
  intros Hocc.
  assert ((Some i, Some j) ∈ map (idx_pair (make_stoi ("." :: alphabet))) (dense_bigrams words)) as Hin.
  { apply occ_pos_elem_of.
    pose proof (occ_nonneg (Some i, Some j)
      (map (idx_pair (make_stoi ("." :: alphabet))) (dense_bigrams words))). lia. }
  rewrite dense_bigrams_to_dot, map_map in Hin.
  apply list_elem_of_fmap in Hin as (p & Heq & Hp).
  rewrite idx_pair_to_dot in Heq. injection Heq as H1 H2. by exists p.
Qed.

(** Below the 64-bit range the matrix holds the occurrence counts. *)
Lemma countBigramsDense_counts :
  total_chars words + num_words words < 2 ^ 63 →
  ∃ N, countBigramsDense words alphabet =
         Ok {| tbl_chars := ("." :: alphabet); tbl_stoi := (make_stoi ("." :: alphabet));
               tbl_itos := make_itos (make_stoi ("." :: alphabet)); tbl_N := N |}
       ∧ shape N (length ("." :: alphabet)) (length ("." :: alphabet))
       ∧ (∀ i j, (i < length ("." :: alphabet))%nat → (j < length ("." :: alphabet))%nat →
            cell N i j =
            Some (occ (Some i, Some j) (map (idx_pair (make_stoi ("." :: alphabet))) (dense_bigrams words))))
       ∧ mat_sum N = total_chars words + num_words words.
Proof.
  intros Hbound. rewrite countBigramsDense_unfold. cbn zeta.
  destruct (fill_count (make_stoi ("." :: alphabet)) (length ("." :: alphabet))
    (dense_bigrams words)
    (np_zeros (length ("." :: alphabet)) (length ("." :: alphabet))))
    as (N & Hrun & Hshape & Hcells & Hsum).
  - apply np_zeros_shape.
  - apply dense_bigrams_indexed. apply words_drawn_boundary.
  - intros i j x Hx.
    destruct (cell_lt _ _ _ _ _ _ (np_zeros_shape _ _) Hx) as [Hi Hj].
    rewrite np_zeros_cell in Hx by done. injection Hx as <-.
    rewrite length_dense_bigrams. lia.
  - exists N. rewrite Hrun. cbn [bind].
    split_and!; [done|done| |].
    + intros i j Hi Hj. rewrite Hcells, np_zeros_cell by done. done.
    + rewrite Hsum, np_zeros_sum, length_dense_bigrams. lia.
Qed.
End agreement.

Lemma drawn_from_Forall alphabet words :
  Forall (λ w, Forall (λ c, char_str c ∈ alphabet) (list_ascii_of_string w)) words →
  ∀ w, w ∈ words → drawn_from alphabet w.
Proof.
  intros Hall w Hw c Hc. rewrite Forall_forall in Hall.
  specialize (Hall w Hw). rewrite Forall_forall in Hall. by apply Hall.
Qed.

Lemma dot_free_Forall words :
  Forall (λ w, "."%char ∉ list_ascii_of_string w) words → dot_free words.
Proof. intros Hall w Hw. rewrite Forall_forall in Hall. by apply Hall. Qed.

Lemma dot_free_deriveAlphabet words :
  dot_free words → "." ∉ deriveAlphabet words.
Proof.
  intros Hfree (c & w & [= <-] & Hw & Hc)%elem_of_deriveAlphabet.
  by apply (Hfree w).
Qed.

Lemma deriveAlphabet_drawn_from words w :
  w ∈ words → drawn_from (deriveAlphabet words) w.
Proof. intros Hw c Hc. apply elem_of_deriveAlphabet. by exists c, w. Qed.

(** C8, as the code behaves: when the alphabet does not contain ['.'], the
    words use only characters of the alphabet and the corpus has fewer than
    [2^63] bigram occurrences, [countBigramsDense] returns a square matrix
    with one row and one column per entry of [chars]; the boundary symbol has
    index 0; the matrix starts as all zeros; every cell ends as the number of
    bigram occurrences with its index pair; and one step of the loop adds one
    to the cell of its bigram and leaves every other cell as it was. *)
Theorem dense_matrix_counts (words alphabet : list string) :
  "." ∉ alphabet →
  (∀ w, w ∈ words → drawn_from alphabet w) →
  total_chars words + num_words words < 2 ^ 63 →
  ∃ tbl, countBigramsDense words alphabet = Ok tbl
    ∧ tbl_chars tbl = "." :: alphabet
    ∧ shape (tbl_N tbl) (S (length alphabet)) (S (length alphabet))
    ∧ dict_get "." (tbl_stoi tbl) = Some 0%nat
    ∧ (∀ i j, (i < S (length alphabet))%nat → (j < S (length alphabet))%nat →
         cell (np_zeros (S (length alphabet)) (S (length alphabet))) i j = Some 0
         ∧ cell (tbl_N tbl) i j =
             Some (occ (Some i, Some j)
                       (map (idx_pair (tbl_stoi tbl)) (dense_bigrams words))))
    ∧ (∀ N p i j x,
         idx_pair (tbl_stoi tbl) p = (Some i, Some j) →
         shape N (S (length alphabet)) (S (length alphabet)) →
         cell N i j = Some x → 0 ≤ x < 2 ^ 63 - 1 →
         ∃ N', dense_step (tbl_stoi tbl) N p = Ok N'
           ∧ cell N' i j = Some (x + 1)
           ∧ ∀ i' j', (i', j') ≠ (i, j) → cell N' i' j' = cell N i' j').
Proof.
  intros Hfresh Hdrawn Hbound.
  destruct (countBigramsDense_counts words alphabet Hdrawn Hbound)
    as (N & Hrun & Hshape & Hcells & _).
  eexists. split; [exact Hrun|]. cbn [tbl_chars tbl_stoi tbl_N].
  split_and!; [done|done|by apply make_stoi_boundary| |].
  - intros i j Hi Hj. split; [by apply np_zeros_cell|by apply Hcells].
  - intros N0 [ch1 ch2] i j x [= H1 H2] Hshape0 Hx Hrange.
    destruct (incr_cell_spec N0 _ _ i j x Hshape0 Hx)
      as (N1 & Hstep & _ & Hij & Hother & _).
    exists N1. rewrite (dense_step_indexed _ N0 (ch1, ch2) i j) by done.
    rewrite wrap64_small in Hij by lia. done.
Qed.

Lemma dense_matrix_counts_witness :
  ∃ tbl, countBigramsDense ["ab"; "ba"] ["a"; "b"] = Ok tbl
    ∧ tbl_chars tbl = ["."; "a"; "b"]
    ∧ shape (tbl_N tbl) 3 3
    ∧ dict_get "." (tbl_stoi tbl) = Some 0%nat
    ∧ (∀ i j, (i < 3)%nat → (j < 3)%nat →
         cell (np_zeros 3 3) i j = Some 0
         ∧ cell (tbl_N tbl) i j =
             Some (occ (Some i, Some j)
                       (map (idx_pair (tbl_stoi tbl)) (dense_bigrams ["ab"; "ba"]))))
    ∧ (∀ N p i j x,
         idx_pair (tbl_stoi tbl) p = (Some i, Some j) →
         shape N 3 3 →
         cell N i j = Some x → 0 ≤ x < 2 ^ 63 - 1 →
         ∃ N', dense_step (tbl_stoi tbl) N p = Ok N'
           ∧ cell N' i j = Some (x + 1)
           ∧ ∀ i' j', (i', j') ≠ (i, j) → cell N' i' j' = cell N i' j').
Proof.
  apply (dense_matrix_counts ["ab"; "ba"] ["a"; "b"]).
  - apply (bool_decide_unpack _). vm_compute. exact I.
  - apply drawn_from_Forall. apply (bool_decide_unpack _). vm_compute. exact I.
  - vm_compute. reflexivity.
Defined.

(** C8 as stated fails: for the single word "." the derived alphabet
    already holds ['.'], [chars] is ['.', '.'], and the boundary symbol gets
    index 1; row 0 and column 0 of the matrix stay zero. *)
Lemma dense_boundary_not_index_0 :
  ∃ tbl, dense_cell ["."] = Ok tbl
    ∧ tbl_chars tbl = ["."; "."]
    ∧ dict_get "." (tbl_stoi tbl) = Some 1%nat
    ∧ dict_get "." (tbl_stoi tbl) ≠ Some 0%nat
    ∧ tbl_N tbl = [[0; 0]; [0; 2]].
Proof. vm_compute. eexists. split_and!; [done..| |done]. intros [=]. Qed.

(** C1, as the code behaves: when no word contains the character ['.'] and
    the corpus has fewer than [2^63] bigram occurrences, the dense cell run
    on the same words agrees with the sparse table.  Every pair of the
    sparse table has indices, and the matrix cell at these indices holds its
    count; a cell that is the image of no pair of the table is zero; and the
    matrix and the table have the same total.  The start and end tokens of
    the sparse table are indexed as the boundary symbol. *)
Theorem sparse_dense_agree (words : list string) :
  dot_free words →
  total_chars words + num_words words < 2 ^ 63 →
  ∃ tbl, dense_cell words = Ok tbl
    ∧ (∀ prev next c,
         dict_get (prev, next) (countBigramsSparse words) = Some c →
         ∃ i j, sym_index (tbl_stoi tbl) prev = Some i
              ∧ sym_index (tbl_stoi tbl) next = Some j
              ∧ cell (tbl_N tbl) i j = Some c)
    ∧ (∀ i j x,
         cell (tbl_N tbl) i j = Some x →
         (∀ prev next, (prev, next) ∈ keys (countBigramsSparse words) →
            ¬ (sym_index (tbl_stoi tbl) prev = Some i
               ∧ sym_index (tbl_stoi tbl) next = Some j)) →
         x = 0)
    ∧ mat_sum (tbl_N tbl) = dict_sum (countBigramsSparse words).
Proof.
  intros Hfree Hbound.
  pose proof (dot_free_deriveAlphabet words Hfree) as Hfresh.
  pose proof (deriveAlphabet_drawn_from words) as Hdrawn.
  destruct (countBigramsDense_counts words (deriveAlphabet words) Hdrawn Hbound)
    as (N & Hrun & Hshape & Hcells & Hsum).
  eexists. split; [exact Hrun|]. cbn [tbl_stoi tbl_N]. split_and!.
  - intros prev next c Hc.
    assert ((prev, next) ∈ sparse_bigrams words) as Hp.
    { apply countBigramsSparse_keys, dict_get_is_Some. by eexists. }
    rewrite countBigramsSparse_get in Hc. case_decide; [done|].
    injection Hc as <-.
    pose proof (elem_of_sparse_bigrams words _ Hp) as [Hp1 Hp2].
    destruct (sym_index_is_Some words (deriveAlphabet words) Hfresh Hdrawn
      "<S>" prev eq_refl Hp1) as [i Hi].
    destruct (sym_index_is_Some words (deriveAlphabet words) Hfresh Hdrawn
      "<E>" next eq_refl Hp2) as [j Hj].
    exists i, j. split_and!; [done|done|].
    rewrite Hcells.
    + rewrite <-(occ_idx_pair words (deriveAlphabet words) Hfresh Hdrawn (prev, next) Hp).
      cbn [fst snd]. by rewrite Hi, Hj.
    + eapply make_stoi_lt, Hi.
    + eapply make_stoi_lt, Hj.
  - intros i j x Hx Hnone.
    destruct (cell_lt _ _ _ _ _ _ Hshape Hx) as [Hi Hj].
    rewrite Hcells in Hx by done. injection Hx as <-.
    destruct (decide (occ (Some i, Some j)
      (map (idx_pair (make_stoi ("." :: deriveAlphabet words)))
           (dense_bigrams words)) = 0)) as [Hz|Hnz]; [done|].
    apply idx_pair_visited in Hnz as ([prev next] & Hp & H1 & H2).
    exfalso. apply (Hnone prev next); [|done].
    by apply countBigramsSparse_keys.
  - rewrite Hsum. symmetry. apply sparse_total_count_sum.
Qed.

Lemma sparse_dense_agree_witness :
  ∃ tbl, dense_cell ["ab"; "ba"] = Ok tbl
    ∧ (∀ prev next c,
         dict_get (prev, next) (countBigramsSparse ["ab"; "ba"]) = Some c →
         ∃ i j, sym_index (tbl_stoi tbl) prev = Some i
              ∧ sym_index (tbl_stoi tbl) next = Some j
              ∧ cell (tbl_N tbl) i j = Some c)
    ∧ (∀ i j x,
         cell (tbl_N tbl) i j = Some x →
         (∀ prev next, (prev, next) ∈ keys (countBigramsSparse ["ab"; "ba"]) →
            ¬ (sym_index (tbl_stoi tbl) prev = Some i
               ∧ sym_index (tbl_stoi tbl) next = Some j)) →
         x = 0)
    ∧ mat_sum (tbl_N tbl) = dict_sum (countBigramsSparse ["ab"; "ba"]).
Proof.
  apply (sparse_dense_agree ["ab"; "ba"]).
  - apply dot_free_Forall. apply (bool_decide_unpack _). vm_compute. exact I.
  - vm_compute. reflexivity.
Defined.

(** C1 as stated fails: for the words "a." and "a" the sparse table counts
    the pair [('a', '.')] once, while the matrix cell at the indices of ['a']
    and ['.'] holds 2, because the array approach also files the end of the
    word "a" under ['.']. *)
Lemma sparse_dense_disagree :
  ∃ tbl, dense_cell ["a."; "a"] = Ok tbl
    ∧ dict_get ("a", ".") (countBigramsSparse ["a."; "a"]) = Some 1
    ∧ dict_get "a" (tbl_stoi tbl) = Some 2%nat
    ∧ dict_get "." (tbl_stoi tbl) = Some 1%nat
    ∧ cell (tbl_N tbl) 2 1 = Some 2.
Proof. vm_compute. eexists. by split_and!. Qed.




(** ** The empty corpus *)

(** C3, as the code behaves: on the empty word list nothing raises;
    the derived alphabet is empty, the sparse table is empty, and the dense
    cell returns the 1 by 1 zero matrix over the boundary symbol alone. *)
Theorem empty_corpus_tables :
  deriveAlphabet [] = []
  ∧ countBigramsSparse [] = []
  ∧ dense_cell [] =
      Ok {| tbl_chars := ["."]; tbl_stoi := [(".", 0%nat)];
            tbl_itos := [(PStr ".", PInt 0)]; tbl_N := [[0]] |}.
Proof. by vm_compute. Qed.

(** C3 as stated fails: no operation reports an error on the empty list. *)
Lemma empty_corpus_no_error :
  deriveAlphabet [] = []
  ∧ countBigramsSparse [] = []
  ∧ ¬ fails (dense_cell [])
  ∧ ¬ fails (countBigramsDense [] []).
Proof. vm_compute. split_and!; [done|done|by intros [e [=]]..]. Qed.

(** The inspection lines of the dictionary cell do raise on the empty list,
    a [ValueError] from [min], before the counting loop is reached. *)
Lemma dictionary_cell_empty : dictionary_cell [] = Err ValueError.
Proof. reflexivity. Qed.

Lemma dictionary_cell_nonempty w words :
  dictionary_cell (w :: words) =
    Ok (countBigramsSparse (w :: words), topBigrams (countBigramsSparse (w :: words)) 10).
Proof. reflexivity. Qed.

(** ** The scenarios of the specification *)

Example scenario_ab_ba :
  countBigramsSparse ["ab"; "ba"] =
    [(("<S>", "a"), 1); (("a", "b"), 1); (("b", "<E>"), 1);
     (("<S>", "b"), 1); (("b", "a"), 1); (("a", "<E>"), 1)]
  ∧ dict_sum (countBigramsSparse ["ab"; "ba"]) = 6.
Proof. by vm_compute. Qed.

Example scenario_aa :
  countBigramsSparse ["aa"] =
    [(("<S>", "a"), 1); (("a", "a"), 1); (("a", "<E>"), 1)]
  ∧ dict_sum (countBigramsSparse ["aa"]) = 3.
Proof. by vm_compute. Qed.

Example scenario_dense_ab_ba :
  tbl_N <$> (match dense_cell ["ab"; "ba"] with Ok t => Some t | Err _ => None end)
  = Some [[0; 1; 1]; [1; 0; 1]; [1; 1; 0]].
Proof. by vm_compute. Qed.

(** A character outside the alphabet: the cell raises at the first lookup of
    ['b'], and [N] keeps the one increment made before it. *)
Example scenario_unknown_symbol :
  countBigramsDense ["ab"] ["a"] = Err (KeyError "b")
  ∧ dense_N_store ["ab"] ["a"] = ([[0; 1]; [0; 0]], Some (KeyError "b")).
Proof. by vm_compute. Qed.

(** At the top of the 64-bit range the increment wraps to the bottom. *)
Example incr_cell_wraps :
  incr_cell [[2 ^ 63 - 1]] 0 0 = Ok [[- 2 ^ 63]].
Proof. by vm_compute. Qed.

(** ** The 64-bit range of the matrix cells *)

Lemma map_replicate_eq {A B} (f : A → B) (x : A) (k : nat) :
  map f (replicate k x) = replicate k (f x).
Proof. induction k as [|k IH]; [done|]. cbn [replicate map]. by rewrite IH. Qed.

Lemma occ_replicate {A} `{EqDecision A} (x : A) (k : nat) :
  occ x (replicate k x) = Z.of_nat k.
Proof.
  induction k as [|k IH]; [done|]. cbn [replicate occ].
  rewrite decide_True by done. lia.
Qed.

Lemma flat_map_replicate {A B} (f : A → list B) (x : A) (y : B) (k : nat) :
  f x = [y] → flat_map f (replicate k x) = replicate k y.
Proof.
  intros Hf. induction k as [|k IH]; [done|].
  cbn [replicate flat_map]. by rewrite Hf, IH.
Qed.

Lemma concat_replicate_empty (k : nat) : String.concat "" (replicate k "") = "".
Proof.
  induction k as [|k IH]; [done|]. cbn [replicate String.concat].
  destruct (replicate k ""); [done|]. by rewrite IH.
Qed.

Lemma deriveAlphabet_replicate_empty (k : nat) : deriveAlphabet (replicate k "") = [].
Proof.
  unfold deriveAlphabet. rewrite concat_replicate_empty.
  unfold py_set, list_str. cbn [list_ascii_of_string map list_to_set].
  by rewrite elements_empty.
Qed.

(** A corpus of [k] empty words: the sparse table counts the pair of the two
    tokens [k] times, the matrix holds [k] wrapped into the 64-bit range. *)
Lemma empty_words_dense (k : nat) :
  ∃ tbl, dense_cell (replicate k "") = Ok tbl
    ∧ cell (tbl_N tbl) 0 0 = Some (wrap64 (Z.of_nat k)).
Proof.
  unfold dense_cell. rewrite deriveAlphabet_replicate_empty.
  rewrite countBigramsDense_unfold. cbn zeta.
  destruct (fill_wrap (make_stoi ["."]) 1 (dense_bigrams (replicate k ""))
    (np_zeros 1 1)) as (N & Hrun & _ & Hcells).
  - apply np_zeros_shape.
  - apply (dense_bigrams_indexed (replicate k "") []).
    intros w [-> _]%elem_of_replicate c []%elem_of_nil.
  - intros i j x Hx.
    destruct (cell_lt _ _ _ _ _ _ (np_zeros_shape 1 1) Hx) as [Hi Hj].
    rewrite np_zeros_cell in Hx by done. injection Hx as <-. lia.
  - change (length ["."]) with 1%nat. rewrite Hrun. cbn [bind].
    eexists. split; [done|]. cbn [tbl_N]. rewrite Hcells.
    rewrite np_zeros_cell by lia. cbn [fmap option_fmap option_map].
    unfold dense_bigrams.
    rewrite (flat_map_replicate _ "" (".", ".")) by done.
    rewrite (map_replicate_eq (idx_pair (make_stoi ["."])) (".", ".") k).
    change (idx_pair (make_stoi ["."]) (".", ".")) with (Some 0%nat, Some 0%nat).
    by rewrite occ_replicate.
Qed.

Lemma empty_words_sparse (k : nat) :
  (0 < k)%nat →
  dict_get ("<S>", "<E>") (countBigramsSparse (replicate k "")) = Some (Z.of_nat k).
Proof.
  intros Hk. rewrite countBigramsSparse_get. unfold sparse_bigrams.
  rewrite (flat_map_replicate _ "" ("<S>", "<E>")) by done.
  rewrite occ_replicate. rewrite decide_False by lia. done.
Qed.

(** The bound on the corpus size in C1 and C8 cannot be dropped: on [2^63]
    empty words the sparse count of the token pair is [2^63], and the matrix
    cell of the boundary pair has wrapped to [-2^63]. *)
Lemma dense_count_wraps :
  ∃ tbl, dense_cell (replicate (Z.to_nat (2 ^ 63)) "") = Ok tbl
    ∧ cell (tbl_N tbl) 0 0 = Some (- 2 ^ 63)
    ∧ dict_get ("<S>", "<E>")
        (countBigramsSparse (replicate (Z.to_nat (2 ^ 63)) "")) = Some (2 ^ 63).
Proof.
  destruct (empty_words_dense (Z.to_nat (2 ^ 63))) as (tbl & Hrun & Hcell).
  exists tbl. split; [exact Hrun|]. split.
  - rewrite Hcell. rewrite Z2Nat.id by lia. reflexivity.
  - rewrite empty_words_sparse by lia. rewrite Z2Nat.id by lia. reflexivity.
Qed.





(** * Further properties of the bigram cells *)

(** X1: the sparse table holds exact occurrence counts: [b.get((prev,
    next), 0)] is the number of times [next] follows [prev] in the bracketed
    words, a pair is a key exactly when it occurs, and no key is repeated. *)
Theorem sparse_exact_counts (words : list string) (prev next : string) :
  dict_get_default (prev, next) 0 (countBigramsSparse words)
    = occ (prev, next) (sparse_bigrams words)
  ∧ ((prev, next) ∈ keys (countBigramsSparse words)
     ↔ (prev, next) ∈ sparse_bigrams words)
  ∧ NoDup (keys (countBigramsSparse words)).
Proof.
  split_and!.
  - unfold dict_get_default. rewrite countBigramsSparse_get.
    by case_decide.
  - apply countBigramsSparse_keys.
  - apply countBigramsSparse_keys_NoDup.
Qed.

Lemma dict_sum_where_set {K} `{EqDecision K} (P : K → bool) k v (d : dict K Z) :
  dict_sum_where P (dict_set k v d) =
    dict_sum_where P d + (if P k then v - dict_get_default k 0 d else 0).
Proof.
  unfold dict_sum_where, dict_sum, values, dict_get_default.
  induction d as [|[k0 v0] d IH]; cbn [dict_set dict_get List.filter fst].
  - destruct (P k); simpl; lia.
  - destruct (decide (k = k0)) as [->|Hne]; cbn [List.filter fst].
    + destruct (P k0); simpl; lia.
    + destruct (P k0); cbn [map snd foldr]; rewrite IH; lia.
Qed.

Lemma sparse_fold_sum_where (P : string * string → bool) l b :
  dict_sum_where P (fold_left sparse_step l b) =
    dict_sum_where P b + Z.of_nat (length (List.filter P l)).
Proof.
  revert b. induction l as [|[ch1 ch2] l IH]; intros b;
    cbn [fold_left List.filter]; [cbn [length]; lia|].
  rewrite IH. unfold sparse_step. rewrite dict_sum_where_set.
  destruct (P (ch1, ch2)); cbn [length]; lia.
Qed.

Lemma filter_fst_length {A B} (Q : A → bool) (l : list (A * B)) :
  length (List.filter (λ p, Q p.1) l) = length (List.filter Q (map fst l)).
Proof.
  induction l as [|[a b] l IH]; [done|]. cbn [List.filter map fst].
  destruct (Q a); cbn [length]; by rewrite IH.
Qed.

Lemma filter_snd_length {A B} (Q : B → bool) (l : list (A * B)) :
  length (List.filter (λ p, Q p.2) l) = length (List.filter Q (map snd l)).
Proof.
  induction l as [|[a b] l IH]; [done|]. cbn [List.filter map snd].
  destruct (Q b); cbn [length]; by rewrite IH.
Qed.

Lemma filter_token_list_str (t : string) (w : string) :
  (∀ c, char_str c ≠ t) →
  List.filter (λ s, bool_decide (s = t)) (list_str w) = [].
Proof.
  intros Ht. unfold list_str.
  induction (list_ascii_of_string w) as [|c l IH]; [done|].
  cbn [map List.filter]. by rewrite bool_decide_eq_false_2.
Qed.

Lemma sparse_word_starts w :
  length (List.filter (λ p : string * string, bool_decide (p.1 = "<S>"))
            (zip_next (sparse_chs w))) = 1%nat.
Proof.
  etrans; [exact (filter_fst_length (λ s, bool_decide (s = "<S>"))
                    (zip_next (sparse_chs w)))|].
  change (map fst (zip_next (sparse_chs w)))
    with ((zip_next ("<S>" :: list_str w ++ ["<E>"])).*1).
  rewrite zip_next_fst. cbn [List.filter].
  rewrite bool_decide_eq_true_2 by done.
  rewrite filter_token_list_str; [done|]. by intros c [=].
Qed.

Lemma sparse_word_ends w :
  length (List.filter (λ p : string * string, bool_decide (p.2 = "<E>"))
            (zip_next (sparse_chs w))) = 1%nat.
Proof.
  etrans; [exact (filter_snd_length (λ s, bool_decide (s = "<E>"))
                    (zip_next (sparse_chs w)))|].
  change (map snd (zip_next (sparse_chs w)))
    with ((zip_next ("<S>" :: list_str w ++ ["<E>"])).*2).
  rewrite zip_next_snd, List.filter_app.
  rewrite filter_token_list_str by (by intros c [=]). done.
Qed.

Lemma filter_flat_map_length {A B} (P : B → bool) (f : A → list B) (l : list A) :
  (∀ x, length (List.filter P (f x)) = 1%nat) →
  length (List.filter P (flat_map f l)) = length l.
Proof.
  intros Hone. induction l as [|x l IH]; [done|].
  cbn [flat_map]. rewrite List.filter_app, length_app, Hone, IH. done.
Qed.

(** X2: in the sparse table the end token never stands first and the start
    token never stands second, and the counts of the pairs that begin with
    the start token add up to the number of words, as do the counts of the
    pairs that end with the end token: every word is entered once and left
    once. *)
Theorem sparse_boundary_tokens (words : list string) :
  (∀ prev next, (prev, next) ∈ keys (countBigramsSparse words) →
     prev ≠ "<E>" ∧ next ≠ "<S>")
  ∧ dict_sum_where (λ k, bool_decide (k.1 = "<S>")) (countBigramsSparse words)
      = num_words words
  ∧ dict_sum_where (λ k, bool_decide (k.2 = "<E>")) (countBigramsSparse words)
      = num_words words.
Proof.
  split_and!.
  - intros prev next Hk%countBigramsSparse_keys.
    apply elem_of_sparse_bigrams in Hk as [H1 H2]. cbn [fst snd] in *. split.
    + destruct H1 as [->|(w & c & _ & _ & ->)]; by intros [=].
    + destruct H2 as [->|(w & c & _ & _ & ->)]; by intros [=].
  - rewrite countBigramsSparse_bigrams, sparse_fold_sum_where.
    unfold sparse_bigrams.
    rewrite filter_flat_map_length by apply sparse_word_starts. done.
  - rewrite countBigramsSparse_bigrams, sparse_fold_sum_where.
    unfold sparse_bigrams.
    rewrite filter_flat_map_length by apply sparse_word_ends. done.
Qed.

(** X3: the dense cell never raises, whatever the words: the alphabet is
    derived from the words it counts, so every lookup in [stoi] succeeds and
    every index is inside the matrix.  The matrix has one row and one column
    per entry of [chars], and [stoi] has exactly the symbols of [chars] as
    keys, each mapped to a position at which [chars] holds it. *)
Theorem dense_cell_never_raises (words : list string) :
  ∃ tbl, dense_cell words = Ok tbl
    ∧ tbl_chars tbl = "." :: deriveAlphabet words
    ∧ shape (tbl_N tbl) (length (tbl_chars tbl)) (length (tbl_chars tbl))
    ∧ (∀ s, s ∈ tbl_chars tbl ↔ is_Some (dict_get s (tbl_stoi tbl)))
    ∧ (∀ s i, dict_get s (tbl_stoi tbl) = Some i → tbl_chars tbl !! i = Some s)
    ∧ NoDup (keys (tbl_stoi tbl)).
Proof.
  destruct (countBigramsDense_ok words (deriveAlphabet words))
    as (N & Hrun & Hshape).
  { intros w. apply deriveAlphabet_drawn. }
  eexists. split; [exact Hrun|]. cbn [tbl_chars tbl_stoi tbl_N].
  split_and!; [done|done| | |].
  - intros s. by rewrite make_stoi_is_Some.
  - intros s i. apply make_stoi_lookup.
  - apply make_stoi_keys_NoDup.
Qed.

(** X4: the totals of the two tables agree on every corpus with fewer than
    [2^63] bigram occurrences, also on one that contains ['.'], where single
    cells differ: the cells of [N] add up to the sum of the values of [b],
    which is the number of characters plus the number of words. *)
Theorem dense_sparse_totals_agree (words : list string) :
  total_chars words + num_words words < 2 ^ 63 →
  ∃ tbl, dense_cell words = Ok tbl
    ∧ mat_sum (tbl_N tbl) = dict_sum (countBigramsSparse words)
    ∧ mat_sum (tbl_N tbl) = total_chars words + num_words words.
Proof.
  intros Hbound.
  destruct (countBigramsDense_counts words (deriveAlphabet words)
    (deriveAlphabet_drawn_from words) Hbound) as (N & Hrun & _ & _ & Hsum).
  eexists. split; [exact Hrun|]. cbn [tbl_N].
  by rewrite sparse_total_count_sum.
Qed.

Lemma dense_sparse_totals_agree_witness :
  ∃ tbl, dense_cell ["a."; "a"] = Ok tbl
    ∧ mat_sum (tbl_N tbl) = dict_sum (countBigramsSparse ["a."; "a"])
    ∧ mat_sum (tbl_N tbl) = total_chars ["a."; "a"] + num_words ["a."; "a"].
Proof.
  apply (dense_sparse_totals_agree ["a."; "a"]). vm_compute. reflexivity.
Defined.

(** ** The index mapping in general *)

Lemma enumerate_snoc {A} (l : list A) (c : A) :
  enumerate (l ++ [c]) = enumerate l ++ [(length l, c)].
Proof.
  unfold enumerate. rewrite length_app. cbn [length].
  replace (length l + 1)%nat with (S (length l)) by lia.
  rewrite seq_S. cbn [Nat.add].
  by rewrite zip_with_app by (by rewrite length_seq).
Qed.

Lemma make_stoi_snoc chars c :
  make_stoi (chars ++ [c]) = dict_set c (length chars) (make_stoi chars).
Proof. unfold make_stoi. by rewrite enumerate_snoc, fold_left_app. Qed.

(** [stoi] maps a symbol to the last position at which [chars] holds it. *)
Lemma make_stoi_get_iff chars s i :
  dict_get s (make_stoi chars) = Some i ↔
  chars !! i = Some s ∧ ∀ j, (i < j)%nat → chars !! j ≠ Some s.
Proof.
  revert i. induction chars as [|c chars IH] using rev_ind; intros i.
  { split; [done|]. by intros [? _]. }
  rewrite make_stoi_snoc, dict_get_set.
  destruct (decide (s = c)) as [->|Hne].
  - split.
    + intros [= <-]. split; [by apply list_lookup_middle|].
      intros j Hj. rewrite lookup_ge_None_2; [done|].
      rewrite length_app. cbn [length]. lia.
    + intros [Hi Hlast]. f_equal.
      apply lookup_snoc_Some in Hi as [[Hlt _]|[-> _]]; [|done].
      exfalso. apply (Hlast (length chars) Hlt). by apply list_lookup_middle.
  - rewrite IH. split.
    + intros [Hi Hlast]. split.
      * rewrite lookup_app_l; [done|]. by eapply lookup_lt_Some.
      * intros j Hj [[_ Hjs]|[_ ->]]%lookup_snoc_Some; [|done].
        by apply (Hlast j).
    + intros [Hi Hlast].
      apply lookup_snoc_Some in Hi as [[Hlt Hi]|[_ ->]]; [|done].
      split; [done|]. intros j Hj Hjs. apply (Hlast j Hj).
      rewrite lookup_app_l; [done|]. by eapply lookup_lt_Some.
Qed.

(** Over a duplicate-free [chars] the mapping lists the symbols in order,
    each with its position. *)
Lemma make_stoi_NoDup chars :
  NoDup chars → make_stoi chars = zip chars (seq 0 (length chars)).
Proof.
  induction chars as [|c chars IH] using rev_ind; intros Hnd; [done|].
  apply NoDup_app in Hnd as (Hnd & Hfresh & _).
  rewrite make_stoi_snoc, IH by done.
  rewrite length_app. cbn [length].
  replace (length chars + 1)%nat with (S (length chars)) by lia.
  rewrite seq_S, zip_with_app by (by rewrite length_seq). cbn [Nat.add].
  apply dict_set_fresh. unfold keys.
  change (map fst (zip chars (seq 0 (length chars))))
    with ((zip chars (seq 0 (length chars))).*1).
  rewrite fst_zip by (by rewrite length_seq).
  intros Hin. apply (Hfresh c Hin). apply list_elem_of_here.
Qed.

(** X5: the comprehension [{s: i for i, s in enumerate(chars)}] maps every
    symbol to the last position at which [chars] holds it, and has no other
    keys: a symbol that [chars] repeats loses its earlier positions. *)
Theorem make_stoi_last_index (chars : list string) (s : string) (i : nat) :
  (dict_get s (make_stoi chars) = Some i ↔
     chars !! i = Some s ∧ ∀ j, (i < j)%nat → chars !! j ≠ Some s)
  ∧ (dict_get s (make_stoi chars) = None ↔ s ∉ chars).
Proof.
  split; [apply make_stoi_get_iff|].
  rewrite <-make_stoi_is_Some. split.
  - intros -> [? [=]].
  - apply eq_None_not_Some.
Qed.

(** X6: [char_to_index] and [chars] are inverse to each other:
    [char_to_index[chars[i]] = i] and [chars[char_to_index[ch]] = ch]; the
    mapping lists the characters in ascending order with the indices 0, 1,
    ..., [len(chars) - 1]. *)
Theorem char_to_index_round_trip (words : list string) :
  char_to_index words =
    zip (deriveAlphabet words) (seq 0 (length (deriveAlphabet words)))
  ∧ ∀ ch i, dict_get ch (char_to_index words) = Some i
            ↔ deriveAlphabet words !! i = Some ch.
Proof.
  pose proof (deriveAlphabet_NoDup words) as Hnd.
  change (char_to_index words) with (make_stoi (deriveAlphabet words)).
  split; [by apply make_stoi_NoDup|].
  intros ch i. rewrite make_stoi_get_iff. split; [by intros [? _]|].
  intros Hi. split; [done|]. intros j Hj Hjs.
  pose proof (NoDup_lookup _ _ _ _ Hnd Hi Hjs). lia.
Qed.

(** ** Inspecting the data *)

Lemma fold_min_spec (xs : list Z) (x : Z) :
  fold_left Z.min xs x ≤ x
  ∧ (∀ y, y ∈ xs → fold_left Z.min xs x ≤ y)
  ∧ (fold_left Z.min xs x = x ∨ fold_left Z.min xs x ∈ xs).
Proof.
  revert x. induction xs as [|a xs IH]; intros x; cbn [fold_left].
  { split_and!; [lia| |by left]. by intros y ?%elem_of_nil. }
  destruct (IH (Z.min x a)) as (Hle & Hall & Hin). split_and!.
  - lia.
  - intros y [->|Hy]%elem_of_cons; [lia|by apply Hall].
  - destruct Hin as [Heq|Hin]; [|right; by apply list_elem_of_further].
    rewrite Heq. destruct (Z.min_spec x a) as [[_ ->]|[_ ->]]; [by left|].
    right. apply list_elem_of_here.
Qed.

Lemma fold_max_spec (xs : list Z) (x : Z) :
  x ≤ fold_left Z.max xs x
  ∧ (∀ y, y ∈ xs → y ≤ fold_left Z.max xs x)
  ∧ (fold_left Z.max xs x = x ∨ fold_left Z.max xs x ∈ xs).
Proof.
  revert x. induction xs as [|a xs IH]; intros x; cbn [fold_left].
  { split_and!; [lia| |by left]. by intros y ?%elem_of_nil. }
  destruct (IH (Z.max x a)) as (Hle & Hall & Hin). split_and!.
  - lia.
  - intros y [->|Hy]%elem_of_cons; [lia|by apply Hall].
  - destruct Hin as [Heq|Hin]; [|right; by apply list_elem_of_further].
    rewrite Heq. destruct (Z.max_spec x a) as [[_ ->]|[_ ->]]; [|by left].
    right. apply list_elem_of_here.
Qed.

(** X7: the inspection lines raise [ValueError] exactly on the empty word
    list, and so does the dictionary cell, before it counts anything.  On a
    non-empty list the reported minimum and maximum are the lengths of
    words of the list and bound the length of every word. *)
Theorem inspect_min_max (words : list string) :
  (inspect words = Err ValueError ↔ words = [])
  ∧ (dictionary_cell words = Err ValueError ↔ words = [])
  ∧ (words ≠ [] →
     ∃ mn mx, inspect words = Ok (take 10 words, num_words words, mn, mx)
       ∧ (∀ w, w ∈ words → mn ≤ Z.of_nat (String.length w) ≤ mx)
       ∧ (∃ w, w ∈ words ∧ Z.of_nat (String.length w) = mn)
       ∧ (∃ w, w ∈ words ∧ Z.of_nat (String.length w) = mx)).
Proof.
  destruct words as [|w0 words].
  { split_and!; [done|done|]. by intros []. }
  split_and!; [done|done|]. intros _.
  unfold inspect. cbn [map py_min py_max bind].
  set (lens := map (λ w, Z.of_nat (String.length w)) words).
  set (x := Z.of_nat (String.length w0)).
  destruct (fold_min_spec lens x) as (Hmin & Hminall & Hminin).
  destruct (fold_max_spec lens x) as (Hmax & Hmaxall & Hmaxin).
  eexists _, _. split; [done|]. split_and!.
  - intros w [->|Hw]%elem_of_cons; [done|].
    assert (Z.of_nat (String.length w) ∈ lens) as Hin.
    { apply list_elem_of_fmap. by exists w. }
    split; [by apply Hminall|by apply Hmaxall].
  - destruct Hminin as [->|(w & Hw & Hin)%list_elem_of_fmap].
    + exists w0. split; [apply list_elem_of_here|done].
    + exists w. split; [by apply list_elem_of_further|done].
  - destruct Hmaxin as [->|(w & Hw & Hin)%list_elem_of_fmap].
    + exists w0. split; [apply list_elem_of_here|done].
    + exists w. split; [by apply list_elem_of_further|done].
Qed.

(** ** Consecutive pairs *)

(** X8: [zip(chs, chs[1:])] lists the consecutive pairs of [chs] and nothing
    else: its element at position [i] is [(chs[i], chs[i+1])], and it has
    [len(chs) - 1] elements, none for an empty [chs]. *)
Theorem zip_next_lookup {A} (chs : list A) (i : nat) (a b : A) :
  (zip_next chs !! i = Some (a, b) ↔ chs !! i = Some a ∧ chs !! S i = Some b)
  ∧ length (zip_next chs) = pred (length chs).
Proof.
  split; [|apply length_zip_next].
  unfold zip_next. rewrite lookup_zip_with_Some. setoid_rewrite lookup_tail.
  split.
  - by intros (x & y & [= -> ->] & ? & ?).
  - intros [? ?]. by exists a, b.
Qed.

(** * Properties of the other cells *)

(** ** Comprehensions *)

Lemma odd_squares_fold (numbers acc : list Z) :
  fold_left (λ acc n, if decide (n mod 2 = 1) then acc ++ [n * n] else acc)
    numbers acc
  = acc ++ map (λ x, x ^ 2) (List.filter (λ x, x mod 2 =? 1) numbers).
Proof.
  revert acc. induction numbers as [|n numbers IH]; intros acc;
    cbn [fold_left List.filter map].
  - by rewrite app_nil_r.
  - rewrite IH. destruct (decide (n mod 2 = 1)) as [Hodd|Heven].
    + rewrite (proj2 (Z.eqb_eq _ _) Hodd). cbn [map].
      rewrite <-app_assoc. cbn [app]. by rewrite Z.pow_2_r.
    + by rewrite (proj2 (Z.eqb_neq _ _) Heven).
Qed.

(** X9: the comprehension [[n * n for n in numbers if n % 2 == 1]] and the
    pipeline [list(map(lambda x: x**2, filter(lambda x: x % 2 == 1, nums)))]
    of the second notebook compute the same list; its members are exactly
    the squares of the odd members of the input, negative ones included,
    and each of them is odd and at least 1. *)
Theorem odd_squares_spec (numbers : list Z) :
  odd_squares numbers = odd_squares_pipeline numbers
  ∧ (∀ m, m ∈ odd_squares numbers ↔
          ∃ n, n ∈ numbers ∧ n mod 2 = 1 ∧ m = n * n)
  ∧ Forall (λ m, m mod 2 = 1 ∧ 1 ≤ m) (odd_squares numbers)
  ∧ (length (odd_squares numbers) ≤ length numbers)%nat.
Proof.
  assert (odd_squares numbers = odd_squares_pipeline numbers) as Heq.
  { unfold odd_squares. by rewrite odd_squares_fold. }
  assert (∀ m, m ∈ odd_squares numbers ↔
               ∃ n, n ∈ numbers ∧ n mod 2 = 1 ∧ m = n * n) as Hmem.
  { intros m. rewrite Heq. unfold odd_squares_pipeline.
    change (map (λ x, x ^ 2) ?l) with ((λ x, x ^ 2) <$> l).
    rewrite list_elem_of_fmap. split.
    - intros (n & -> & Hn). apply list_elem_of_In, List.filter_In in Hn as [Hn Hodd].
      exists n. rewrite <-list_elem_of_In in Hn.
      split_and!; [done|by apply Z.eqb_eq|apply Z.pow_2_r].
    - intros (n & Hn & Hodd & ->). exists n. split; [by rewrite Z.pow_2_r|].
      apply list_elem_of_In, List.filter_In. rewrite <-list_elem_of_In.
      split; [done|by apply Z.eqb_eq]. }
  split_and!; [done|done| |].
  - apply Forall_forall. intros m (n & _ & Hodd & ->)%Hmem. split.
    + rewrite Z.mul_mod, Hodd by lia. done.
    + assert (n ≠ 0) by (intros ->; done). nia.
  - rewrite Heq. unfold odd_squares_pipeline. rewrite length_map.
    apply List.filter_length_le.
Qed.

(** A dict comprehension over distinct keys lists them in iteration order. *)
Lemma dict_comprehension_fresh {K V} `{EqDecision K} (g : K → V) (ks : list K)
    (d : dict K V) :
  NoDup ks → (∀ k, k ∈ ks → k ∉ keys d) →
  fold_left (λ d k, dict_set k (g k) d) ks d = d ++ map (λ k, (k, g k)) ks.
Proof.
  revert d. induction ks as [|k ks IH]; intros d Hnd Hfresh; cbn [fold_left map].
  - by rewrite app_nil_r.
  - apply NoDup_cons in Hnd as [Hk Hnd].
    rewrite dict_set_fresh by (apply Hfresh, list_elem_of_here).
    rewrite IH; [by rewrite <-app_assoc|done|].
    intros k' Hk'. unfold keys. rewrite map_app, not_elem_of_app. split.
    + apply Hfresh. by apply list_elem_of_further.
    + cbn [map fst]. rewrite list_elem_of_singleton. by intros ->.
Qed.

Lemma occ_NoDup {A} `{EqDecision A} (x : A) (ks : list A) :
  NoDup ks → x ∈ ks → foldr Z.add 0 (map (λ k, if decide (k = x) then 1 else 0) ks) = 1.
Proof.
  induction 1 as [|k ks Hk Hnd IH]; [by intros ?%elem_of_nil|].
  cbn [map foldr]. intros [Heq|Hin]%elem_of_cons.
  - subst k. rewrite decide_True by done.
    assert (foldr Z.add 0 (map (λ k, if decide (k = x) then 1 else 0) ks) = 0)
      as ->; [|done].
    clear IH Hnd. induction ks as [|a ks IH]; [done|]. cbn [map foldr].
    apply not_elem_of_cons in Hk as [Hne Hk].
    rewrite decide_False by done. by rewrite IH.
  - rewrite decide_False by (by intros ->). by rewrite IH.
Qed.

(** Summed over distinct keys that cover the list, the occurrence counts
    come to the length of the list. *)
Lemma sum_occ_cover {A} `{EqDecision A} (l ks : list A) :
  NoDup ks → (∀ x, x ∈ l → x ∈ ks) →
  foldr Z.add 0 (map (λ k, occ k l) ks) = Z.of_nat (length l).
Proof.
  intros Hnd. induction l as [|x l IH]; intros Hcover.
  - cbn [occ length]. clear. induction ks as [|k ks IH]; [done|].
    cbn [map foldr]. by rewrite IH.
  - cbn [occ length].
    assert (foldr Z.add 0
              (map (λ k, (if decide (k = x) then 1 else 0) + occ k l) ks)
            = foldr Z.add 0 (map (λ k, if decide (k = x) then 1 else 0) ks)
              + foldr Z.add 0 (map (λ k, occ k l) ks)) as ->.
    { clear. induction ks as [|k ks IH]; [done|]. cbn [map foldr].
      rewrite IH. lia. }
    rewrite occ_NoDup by (done || apply Hcover, list_elem_of_here).
    rewrite IH by (intros; by apply Hcover, list_elem_of_further). lia.
Qed.

Lemma char_counts_entries (text : string) :
  char_counts text =
    map (λ ch, (ch, str_count text ch)) (elements (py_set (list_str text))).
Proof.
  unfold char_counts.
  rewrite (dict_comprehension_fresh (str_count text)); [done| |].
  - apply NoDup_elements.
  - intros k _. apply not_elem_of_nil.
Qed.

(** X10: [char_counts] has one key for every distinct character of [text]
    and no other, each mapped to its number of occurrences, which is at
    least 1; the values add up to [len(text)]. *)
Theorem char_counts_spec (text : string) :
  (∀ ch, dict_get ch (char_counts text) =
         if decide (ch ∈ list_str text) then Some (occ ch (list_str text))
         else None)
  ∧ NoDup (keys (char_counts text))
  ∧ Forall (λ kv, 1 ≤ kv.2) (char_counts text)
  ∧ dict_sum (char_counts text) = Z.of_nat (String.length text).
Proof.
  rewrite char_counts_entries.
  set (ks := elements (py_set (list_str text))).
  assert (NoDup ks) as Hnd by apply NoDup_elements.
  assert (∀ ch, ch ∈ ks ↔ ch ∈ list_str text) as Hks.
  { intros ch. unfold ks, py_set. by rewrite elem_of_elements, elem_of_list_to_set. }
  assert (keys (map (λ ch, (ch, str_count text ch)) ks) = ks) as Hkeys.
  { unfold keys. rewrite map_map. apply map_id. }
  split_and!.
  - intros ch. destruct (decide (ch ∈ list_str text)) as [Hin|Hnin].
    + apply Hks in Hin. clear Hkeys Hks Hnd.
      induction ks as [|k ks IH]; [by apply elem_of_nil in Hin|].
      cbn [map dict_get]. destruct (decide (ch = k)) as [->|Hne]; [done|].
      apply IH. by apply elem_of_cons in Hin as [?|?].
    + apply dict_get_None. rewrite Hkeys. by rewrite Hks.
  - by rewrite Hkeys.
  - apply Forall_forall. intros [k v] (ch & [= -> ->] & Hch)%list_elem_of_fmap.
    cbn [snd]. unfold str_count. apply Hks, occ_pos_elem_of in Hch. lia.
  - unfold dict_sum, values. rewrite map_map. cbn [snd].
    unfold str_count. rewrite sum_occ_cover; [|done|by intros x ?%Hks].
    by rewrite length_list_str.
Qed.

(** ** Generators *)

Lemma rev_seqZ_cons (n : Z) :
  0 < n → reverse (seqZ 1 n) = n :: reverse (seqZ 1 (n - 1)).
Proof.
  intros Hn. replace n with ((n - 1) + 1) at 1 by lia.
  rewrite seqZ_app by lia.
  rewrite (seqZ_cons _ 1), (seqZ_nil _ (Z.pred 1)) by lia.
  rewrite reverse_snoc. f_equal. lia.
Qed.

Lemma countdown_fuel (fuel : nat) (n : Z) :
  countdown fuel n =
    if decide (Z.to_nat n < fuel)%nat then Some (reverse (seqZ 1 n)) else None.
Proof.
  revert n. induction fuel as [|fuel IH]; intros n; cbn [countdown].
  { by rewrite decide_False by lia. }
  destruct (decide (0 < n)) as [Hn|Hn].
  - rewrite IH. destruct (decide (Z.to_nat (n - 1) < fuel)%nat).
    + rewrite decide_True by lia. cbn. by rewrite (rev_seqZ_cons n) by done.
    + by rewrite decide_False by lia.
  - rewrite decide_True by lia. by rewrite seqZ_nil by lia.
Qed.

(** X11: consumed to the end, [countdown(n)] yields [n, n-1, ..., 1], that
    is [max(n, 0)] values, and nothing for [n <= 0]; the loop stops after
    [max(n, 0) + 1] tests of its condition, and with fuel for fewer tests
    the model has no result. *)
Theorem countdown_spec (fuel : nat) (n : Z) :
  (countdown fuel n =
     if decide (Z.to_nat n < fuel)%nat then Some (reverse (seqZ 1 n)) else None)
  ∧ countdown (S (Z.to_nat n)) n = Some (reverse (seqZ 1 n))
  ∧ length (reverse (seqZ 1 n)) = Z.to_nat n
  ∧ (∀ i v, reverse (seqZ 1 n) !! i = Some v ↔ (v = n - Z.of_nat i ∧ 1 ≤ v)).
Proof.
  split_and!.
  - apply countdown_fuel.
  - rewrite countdown_fuel. by rewrite decide_True by lia.
  - by rewrite length_reverse, length_seqZ.
  - intros i v. rewrite reverse_lookup_Some, lookup_seqZ, length_seqZ. lia.
Qed.

Lemma count_up_from_fuel (fuel : nat) (i n : Z) :
  count_up_from fuel i n =
    if decide (Z.to_nat (n - i + 1) < fuel)%nat then Some (seqZ i (n - i + 1))
    else None.
Proof.
  revert i. induction fuel as [|fuel IH]; intros i; cbn [count_up_from].
  { by rewrite decide_False by lia. }
  destruct (decide (i ≤ n)) as [Hn|Hn].
  - rewrite IH. destruct (decide (Z.to_nat (n - (i + 1) + 1) < fuel)%nat).
    + rewrite decide_True by lia. cbn. rewrite (seqZ_cons i) by lia.
      do 3 f_equal; lia.
    + by rewrite decide_False by lia.
  - rewrite decide_True by lia. by rewrite seqZ_nil by lia.
Qed.

(** X12: consumed to the end, [count_up_to(n)] yields [1, 2, ..., n] and
    nothing for [n < 1]; [countdown(n)] yields the same values in reverse
    order. *)
Theorem count_up_to_spec (n : Z) :
  count_up_to (S (Z.to_nat n)) n = Some (seqZ 1 n)
  ∧ (∀ fuel, count_up_to fuel n =
       if decide (Z.to_nat n < fuel)%nat then Some (seqZ 1 n) else None)
  ∧ countdown (S (Z.to_nat n)) n = reverse <$> count_up_to (S (Z.to_nat n)) n
  ∧ (∀ i v, seqZ 1 n !! i = Some v ↔ (v = 1 + Z.of_nat i ∧ v ≤ n)).
Proof.
  assert (∀ fuel, count_up_to fuel n =
    if decide (Z.to_nat n < fuel)%nat then Some (seqZ 1 n) else None) as Hfuel.
  { intros fuel. unfold count_up_to. cbn zeta. rewrite count_up_from_fuel.
    replace (n - 1 + 1) with n by lia. done. }
  split_and!.
  - rewrite Hfuel. by rewrite decide_True by lia.
  - done.
  - rewrite Hfuel, countdown_fuel. by rewrite !decide_True by lia.
  - intros i v. rewrite lookup_seqZ. lia.
Qed.

(** ** Sorting pairs *)

(** X13: [sorted(pairs, key=lambda x: x[1])] is a rearrangement of [pairs]
    in ascending order of the second components, and pairs with equal
    second components keep their order in [pairs]. *)
Theorem sorted_pairs_spec (pairs : list (string * Z)) :
  sorted_pairs pairs ≡ₚ pairs
  ∧ StronglySorted (λ x y, x.2 ≤ y.2) (sorted_pairs pairs)
  ∧ (∀ v, filter (λ x, x.2 = v) (sorted_pairs pairs)
          = filter (λ x, x.2 = v) pairs).
Proof.
  assert (∀ a b, (a <? b) = true → (b <? a) = false) as Hasym.
  { intros a b Hab. apply Z.ltb_lt in Hab. apply Z.ltb_ge. lia. }
  split_and!.
  - apply sorted_Permutation.
  - eapply StronglySorted_weaken;
      [|apply (sorted_StronglySorted (λ x : string * Z, x.2) Z.ltb)].
    + unfold may_precede. intros x y _ _ Hxy. by apply Z.ltb_ge in Hxy.
    + exact Hasym.
    + intros a b c H1 H2. apply Z.ltb_ge in H1, H2. apply Z.ltb_ge. lia.
  - intros v. by apply (sorted_stable (λ x : string * Z, x.2) Z.ltb).
Qed.

(** ** The cells of the second notebook *)

Lemma append_fold {A} (x acc : list A) :
  fold_left (λ acc y, acc ++ [y]) x acc = acc ++ x.
Proof.
  revert acc. induction x as [|y x IH]; intros acc; simpl.
  - by rewrite app_nil_r.
  - rewrite IH, <- app_assoc. done.
Qed.

Lemma flattened_fold (matrix : list (list Z)) (acc : list Z) :
  fold_left (λ acc x, fold_left (λ acc y, acc ++ [y]) x acc) matrix acc
  = acc ++ concat matrix.
Proof.
  revert acc. induction matrix as [|x m IH]; intros acc; simpl.
  - by rewrite app_nil_r.
  - rewrite IH, append_fold, <- app_assoc. done.
Qed.

Lemma foldr_add_app (l k : list Z) :
  foldr Z.add 0 (l ++ k) = foldr Z.add 0 l + foldr Z.add 0 k.
Proof. induction l as [|x l IH]; simpl; lia. Qed.

Lemma concat_row_major (m : list (list Z)) (c i j : nat) (x : Z) :
  Forall (λ row, length row = c) m →
  cell m i j = Some x →
  concat m !! (i * c + j)%nat = Some x.
Proof.
  revert i. induction m as [|row m IH]; intros i Hshape Hcell.
  - unfold cell in Hcell. by rewrite lookup_nil in Hcell.
  - apply Forall_cons in Hshape as [Hrow Hshape]. simpl.
    destruct i as [|i].
    + unfold cell in Hcell. simpl in Hcell.
      rewrite lookup_app_l; [done|]. by eapply lookup_lt_Some.
    + rewrite lookup_app_r by lia.
      replace (S i * c + j - length row)%nat with (i * c + j)%nat by lia.
      apply IH; [done|]. exact Hcell.
Qed.

(** X14: the nested comprehension [[y for x in matrix for y in x]] is the
    concatenation of the rows: its length is the sum of the row lengths,
    its sum is the sum of all cells, and for a matrix whose rows all have
    [c] entries the entry of row [i] and column [j] lands at position
    [i * c + j]. *)
Theorem flattened_spec (matrix : list (list Z)) :
  flattened matrix = concat matrix
  ∧ length (flattened matrix) = sum_list_with length matrix
  ∧ foldr Z.add 0 (flattened matrix) = mat_sum matrix
  ∧ (∀ y, y ∈ flattened matrix ↔ ∃ x, x ∈ matrix ∧ y ∈ x)
  ∧ (∀ r c i j x, shape matrix r c → cell matrix i j = Some x →
       flattened matrix !! (i * c + j)%nat = Some x).
Proof.
  assert (flattened matrix = concat matrix) as Hflat.
  { unfold flattened. by rewrite flattened_fold. }
  rewrite Hflat. split_and!.
  - done.
  - clear Hflat. induction matrix as [|x m IH]; [done|].
    simpl. rewrite length_app. f_equal. exact IH.
  - clear Hflat. unfold mat_sum. induction matrix as [|x m IH]; [done|].
    simpl. rewrite foldr_add_app. f_equal. exact IH.
  - intros y. rewrite list_elem_of_In, in_concat.
    setoid_rewrite list_elem_of_In. naive_solver.
  - intros r c i j x [_ Hshape] Hcell. by apply concat_row_major.
Qed.

Lemma sum_list_fold (l : list (Z * Z)) (acc : list Z) :
  fold_left (λ acc p, let '(a, b) := p in acc ++ [a + b]) l acc
  = acc ++ map (λ p, p.1 + p.2) l.
Proof.
  revert acc. induction l as [|[a b] l IH]; intros acc; simpl.
  - by rewrite app_nil_r.
  - rewrite IH, <- app_assoc. done.
Qed.

(** X15: the comprehension over [zip(list1, list2)] adds the two lists
    position by position and stops without an error at the end of the
    shorter one. *)
Theorem sum_list_spec (list1 list2 : list Z) :
  length (sum_list list1 list2) = (length list1 `min` length list2)%nat
  ∧ (∀ i v, sum_list list1 list2 !! i = Some v
       ↔ ∃ a b, list1 !! i = Some a ∧ list2 !! i = Some b ∧ v = a + b)
  ∧ sum_list list1 list2 = sum_list list2 list1.
Proof.
  assert (∀ l1 l2, sum_list l1 l2 = zip_with Z.add l1 l2) as Hzw.
  { intros l1 l2. unfold sum_list. rewrite sum_list_fold. simpl.
    revert l2. induction l1 as [|a l1 IH]; intros [|b l2]; simpl; try done.
    f_equal. apply IH. }
  rewrite !Hzw. split_and!.
  - apply length_zip_with.
  - intros i v. rewrite lookup_zip_with_Some.
    split; [intros (a & b & -> & Ha & Hb)|intros (a & b & Ha & Hb & ->)];
      by exists a, b.
  - revert list2. induction list1 as [|a l1 IH]; intros [|b l2]; simpl;
      try done.
    rewrite IH. f_equal. lia.
Qed.




Lemma fold_mul (l : list Z) (x : Z) :
  fold_left (λ a b, a * b) l x = x * foldr Z.mul 1 l.
Proof.
  revert x. induction l as [|y l IH]; intros x; simpl.
  - lia.
  - rewrite IH. lia.
Qed.

Lemma foldr_mul_Permutation (l k : list Z) :
  l ≡ₚ k → foldr Z.mul 1 l = foldr Z.mul 1 k.
Proof. induction 1; simpl; lia. Qed.

Lemma foldr_mul_zero (l : list Z) : foldr Z.mul 1 l = 0 ↔ 0 ∈ l.
Proof.
  induction l as [|x l IH]; simpl.
  - rewrite elem_of_nil. lia.
  - rewrite elem_of_cons, <- IH. lia.
Qed.

(** X17: [reduce(lambda a, b: a * b, nums)] without an initial value raises
    [TypeError] exactly for the empty list, and otherwise returns the
    product of all numbers: the result does not depend on their order and
    is zero exactly when one of the numbers is zero. *)
Theorem product_spec (nums : list Z) :
  (product nums = Raises TypeError ↔ nums = [])
  ∧ (nums ≠ [] → product nums = Returns (foldr Z.mul 1 nums))
  ∧ (∀ nums', nums ≡ₚ nums' → product nums = product nums')
  ∧ (product nums = Returns 0 ↔ 0 ∈ nums)
  ∧ (∀ x, product (x :: nums) = Returns (x * foldr Z.mul 1 nums)).
Proof.
  assert (∀ l, l ≠ [] → product l = Returns (foldr Z.mul 1 l)) as Hprod.
  { intros [|x l] Hne; [done|]. unfold product, reduce.
    by rewrite fold_mul. }
  split_and!.
  - destruct nums; split; done.
  - apply Hprod.
  - intros nums' Hperm. destruct nums as [|x l].
    + apply Permutation_nil_l in Hperm. by subst.
    + rewrite (Hprod (x :: l)) by done. rewrite (Hprod nums').
      * f_equal. by apply foldr_mul_Permutation.
      * intros ->. by apply Permutation_nil_r in Hperm.
  - destruct nums as [|x l].
    + split; [done|]. by rewrite elem_of_nil.
    + rewrite (Hprod (x :: l)) by done.
      etrans; [|apply (foldr_mul_zero (x :: l))].
      split; [intros [= H]; exact H|intros H; f_equal; exact H].
  - intros x. by rewrite Hprod.
Qed.

Lemma squares_parity (x : Z) : (x ^ 2) mod 2 = x mod 2.
Proof.
  replace (x ^ 2) with (x * x) by lia.
  rewrite Z.mul_mod by lia.
  destruct (Z.mod_pos_bound x 2 ltac:(lia)) as [H0 H2].
  assert (x mod 2 = 0 ∨ x mod 2 = 1) as [-> | ->] by lia; done.
Qed.

(** X18: squaring keeps the parity, so [map] and [filter] of the cell can
    be exchanged: the even numbers among the squares are the squares of the
    even numbers, and likewise for the odd ones; [squares] keeps the length
    and yields no negative number, [evens] keeps exactly the even numbers
    in their order. *)
Theorem squares_evens_commute (nums : list Z) :
  evens (squares nums) = squares (evens nums)
  ∧ List.filter (λ x, x mod 2 =? 1) (squares nums) = odd_squares_pipeline nums
  ∧ length (squares nums) = length nums
  ∧ Forall (λ y, 0 ≤ y) (squares nums)
  ∧ (∀ x, x ∈ evens nums ↔ x ∈ nums ∧ x mod 2 = 0)
  ∧ evens nums `sublist_of` nums.
Proof.
  unfold evens, squares, odd_squares_pipeline. split_and!.
  - induction nums as [|x nums IH]; [done|].
    cbn [map List.filter]. rewrite squares_parity, IH.
    by destruct (x mod 2 =? 0).
  - induction nums as [|x nums IH]; [done|].
    cbn [map List.filter]. rewrite squares_parity, IH.
    by destruct (x mod 2 =? 1).
  - apply length_map.
  - apply Forall_forall. intros y Hy.
    apply list_elem_of_In, in_map_iff in Hy as (x & <- & _). nia.
  - intros x. rewrite list_elem_of_In, filter_In, <- list_elem_of_In.
    by rewrite Z.eqb_eq.
  - induction nums as [|x nums IH]; [done|].
    cbn [List.filter]. destruct (x mod 2 =? 0); by constructor.
Qed.

Lemma range_forward (start stop step : Z) :
  0 < step →
  range start stop step
  = Ok (map (λ k, start + Z.of_nat k * step)
          (seq 0 (Z.to_nat ((stop - start + step - 1) / step)))).
Proof.
  intros Hstep. unfold range.
  rewrite decide_False by lia. by rewrite decide_True by lia.
Qed.

Lemma range_backward_empty (start stop step : Z) :
  step < 0 → start ≤ stop → range start stop step = Ok [].
Proof.
  intros Hstep Hle. unfold range.
  rewrite decide_False by lia. rewrite decide_False by lia.
  assert ((start - stop - step - 1) / - step < 1) as Hq.
  { apply Z.div_lt_upper_bound; lia. }
  replace (Z.to_nat ((start - stop - step - 1) / - step)) with 0%nat by lia.
  done.
Qed.

Lemma sum_below (k : nat) :
  2 * fold_left (λ total i, total + i)
        (map (λ k, 0 + Z.of_nat k * 1) (seq 0 k)) 0
  = Z.of_nat k * (Z.of_nat k - 1).
Proof.
  induction k as [|k IH]; [done|].
  rewrite seq_S, map_app, fold_left_app. cbn [map fold_left Nat.add].
  nia.
Qed.

(** X19: [compute_sum(n)] never raises and returns [n * (n - 1) / 2], the
    sum of the integers below [n], for [n >= 0] and [0] for a negative
    [n]; each further unit of [n] adds [n] to the result. *)
Theorem compute_sum_closed_form (n : Z) :
  compute_sum n = Ok (Z.max n 0 * (Z.max n 0 - 1) / 2)
  ∧ (n ≤ 1 → compute_sum n = Ok 0)
  ∧ (0 ≤ n → ∃ s, compute_sum n = Ok s ∧ compute_sum (n + 1) = Ok (s + n)).
Proof.
  assert (∀ m, compute_sum m = Ok (Z.max m 0 * (Z.max m 0 - 1) / 2)) as Hsum.
  { intros m. unfold compute_sum. rewrite range_forward by lia.
    cbn [bind]. f_equal.
    replace (m - 0 + 1 - 1) with m by lia. rewrite Z.div_1_r.
    pose proof (sum_below (Z.to_nat m)) as Hk.
    replace (Z.of_nat (Z.to_nat m)) with (Z.max m 0) in Hk by lia.
    rewrite <- Hk, Z.mul_comm, Z.div_mul by lia. done. }
  split_and!.
  - apply Hsum.
  - intros Hn. rewrite Hsum. f_equal.
    assert (Z.max n 0 = 0 ∨ Z.max n 0 = 1) as [-> | ->] by lia; done.
  - intros Hn. eexists. split; [apply Hsum|]. rewrite Hsum. f_equal.
    replace (Z.max n 0) with n by lia.
    replace (Z.max (n + 1) 0) with (n + 1) by lia.
    replace ((n + 1) * (n + 1 - 1)) with (n * (n - 1) + n * 2) by lia.
    rewrite Z.div_add by lia. done.
Qed.

Lemma string_length_app (s1 s2 : string) :
  String.length (s1 +:+ s2) = (String.length s1 + String.length s2)%nat.
Proof.
  induction s1 as [|a s1 IH]; [done|].
  change (String a s1 +:+ s2) with (String a (s1 +:+ s2)).
  cbn [String.length]. by rewrite IH.
Qed.

Lemma string_concat_length (s : string) (words : list string) :
  String.length (String.concat s words)
  = (sum_list_with String.length words
     + String.length s * (length words - 1))%nat.
Proof.
  induction words as [|w words IH]; [simpl; lia|].
  destruct words as [|w' words].
  - cbn. lia.
  - change (String.concat s (w :: w' :: words))
      with (w +:+ s +:+ String.concat s (w' :: words)).
    rewrite !string_length_app, IH. cbn [sum_list_with length]. lia.
Qed.

(** X20: the type hint on [sep] is not enforced: [concatenate] raises
    [AttributeError] exactly when [sep] is an [int], whatever [words] is,
    even empty; with a string separator it returns a string whose length is
    the sum of the lengths of the words plus one separator between each two
    neighbours, and a single word comes back unchanged. *)
Theorem concatenate_spec (words : list string) (sep : pyval) :
  (concatenate words sep = Raises AttributeError ↔ ∃ k, sep = PInt k)
  ∧ (∀ s, sep = PStr s → ∃ r, concatenate words sep = Returns r
       ∧ String.length r
         = (sum_list_with String.length words
            + String.length s * (length words - 1))%nat)
  ∧ (∀ s w, concatenate [w] (PStr s) = Returns w)
  ∧ (∀ s w words', words' ≠ [] →
       concatenate (w :: words') (PStr s)
       = match concatenate words' (PStr s) with
         | Returns r => Returns (w +:+ s +:+ r)
         | Raises e => Raises e
         end).
Proof.
  split_and!.
  - destruct sep as [s|k]; simpl.
    + split; [done|]. by intros [k [=]].
    + split; [by exists k|done].
  - intros s ->. eexists. split; [done|]. apply string_concat_length.
  - done.
  - intros s w [|w' words'] Hne; done.
Qed.

Lemma chunks_concat {A} (b m : nat) (data : list A) :
  (length data ≤ m * b)%nat →
  concat (map (λ k, take b (drop (k * b) data)) (seq 0 m)) = data.
Proof.
  revert data. induction m as [|m IH]; intros data Hlen.
  - destruct data; [done|]. simpl in Hlen. lia.
  - cbn [seq map concat]. rewrite <- seq_shift, map_map.
    rewrite (map_ext _ (λ k, take b (drop (k * b) (drop b data)))).
    + rewrite IH; [apply take_drop|]. rewrite length_drop. lia.
    + intros k. rewrite drop_drop. do 2 f_equal; lia.
Qed.

Lemma batchify_forward {A} (data : list A) (batch_size : Z) :
  0 < batch_size →
  batchify data batch_size
  = Ok (map (λ k, take (Z.to_nat batch_size)
                    (drop (k * Z.to_nat batch_size) data))
          (seq 0 (Z.to_nat
             ((Z.of_nat (length data) + batch_size - 1) / batch_size)))).
Proof.
  intros Hbs. unfold batchify. rewrite range_forward by lia. cbn [bind].
  f_equal. rewrite map_map.
  replace (Z.of_nat (length data) - 0 + batch_size - 1)
    with (Z.of_nat (length data) + batch_size - 1) by lia.
  apply map_ext. intros k. unfold slice. f_equal.
  - f_equal. lia.
  - f_equal. rewrite Z.add_0_l, Z2Nat.inj_mul, Nat2Z.id by lia. done.
Qed.

Lemma batch_count_bounds (len : nat) (batch_size : Z) :
  0 < batch_size →
  let m := Z.to_nat ((Z.of_nat len + batch_size - 1) / batch_size) in
  (len ≤ m * Z.to_nat batch_size)%nat
  ∧ (∀ k, (k < m)%nat → (k * Z.to_nat batch_size < len)%nat).
Proof.
  intros Hbs m.
  pose proof (Z.mul_div_le (Z.of_nat len + batch_size - 1) batch_size Hbs)
    as Hlo.
  pose proof (Z.mul_succ_div_gt (Z.of_nat len + batch_size - 1) batch_size
    Hbs) as Hhi.
  assert (0 ≤ (Z.of_nat len + batch_size - 1) / batch_size) as Hq.
  { apply Z.div_pos; lia. }
  assert (Z.of_nat m = (Z.of_nat len + batch_size - 1) / batch_size) as Hm.
  { unfold m. lia. }
  rewrite <- Hm in Hlo, Hhi. clear Hm Hq.
  assert (Z.of_nat (Z.to_nat batch_size) = batch_size) as Hb by lia.
  revert Hlo Hhi Hb. generalize (Z.to_nat batch_size). generalize m.
  intros q b Hlo Hhi Hb. subst batch_size. split.
  - nia.
  - intros k Hk. nia.
Qed.

(** X21: [batchify] consumed to the end. A batch size of zero raises
    [ValueError] (from [range]); a negative batch size yields no batch at
    all, whatever the data; a positive batch size cuts the data into
    consecutive batches: their concatenation is the data, there are
    ceil(len(data) / batch_size) of them, none is empty or longer than
    [batch_size], and all but the last have exactly [batch_size]
    elements. *)
Theorem batchify_spec {A} (data : list A) (batch_size : Z) :
  (batch_size = 0 → batchify data batch_size = Err ValueError)
  ∧ (batch_size < 0 → batchify data batch_size = Ok [])
  ∧ (0 < batch_size → ∃ batches,
       batchify data batch_size = Ok batches
       ∧ concat batches = data
       ∧ Z.of_nat (length batches)
         = (Z.of_nat (length data) + batch_size - 1) / batch_size
       ∧ (∀ i b, batches !! i = Some b →
            b = take (Z.to_nat batch_size)
                  (drop (i * Z.to_nat batch_size) data)
            ∧ 1 ≤ Z.of_nat (length b) ≤ batch_size
            ∧ ((S i < length batches)%nat →
                 Z.of_nat (length b) = batch_size))).
Proof.
  split_and!.
  - intros ->. unfold batchify, range. by rewrite decide_True by done.
  - intros Hbs. unfold batchify.
    rewrite range_backward_empty by lia. done.
  - intros Hbs. eexists. split; [by apply batchify_forward|].
    destruct (batch_count_bounds (length data) batch_size Hbs)
      as [Hcover Hstart].
    assert (0 ≤ (Z.of_nat (length data) + batch_size - 1) / batch_size)
      as Hq by (apply Z.div_pos; lia).
    split_and!.
    + by apply chunks_concat.
    + rewrite length_map, length_seq. lia.
    + intros i b Hb. rewrite length_map, length_seq.
      apply list_lookup_fmap_Some in Hb as (k & -> & Hk). fold (@map).
      apply lookup_seq in Hk as [-> Hi]. cbn [Nat.add].
      split; [done|]. rewrite length_take, length_drop.
      pose proof (Hstart i Hi) as Hthis. split; [lia|].
      intros HS. pose proof (Hstart (S i) HS) as Hnext. lia.
Qed.

(** ** Row and column sums of the count matrix *)

Lemma sum_map_ext {A} (f g : A → Z) (l : list A) :
  (∀ x, x ∈ l → f x = g x) →
  foldr Z.add 0 (map f l) = foldr Z.add 0 (map g l).
Proof.
  induction l as [|x l IH]; intros Hfg; [done|]. cbn [map foldr].
  rewrite (Hfg x) by apply list_elem_of_here.
  rewrite IH; [done|]. intros y Hy. apply Hfg. by apply list_elem_of_further.
Qed.

Lemma sum_map_add {A} (f g : A → Z) (l : list A) :
  foldr Z.add 0 (map (λ x, f x + g x) l)
  = foldr Z.add 0 (map f l) + foldr Z.add 0 (map g l).
Proof. induction l as [|x l IH]; cbn [map foldr]; lia. Qed.

Lemma sum_map_zero {A} (l : list A) :
  foldr Z.add 0 (map (λ _, 0) l) = 0.
Proof. induction l as [|x l IH]; cbn [map foldr]; lia. Qed.

Lemma occ_app {A} `{EqDecision A} (x : A) (l k : list A) :
  occ x (l ++ k) = occ x l + occ x k.
Proof. induction l as [|y l IH]; cbn [app occ]; lia. Qed.

Lemma occ_Permutation {A} `{EqDecision A} (x : A) (l k : list A) :
  l ≡ₚ k → occ x l = occ x k.
Proof. induction 1; cbn [occ]; repeat case_decide; lia. Qed.

(** The occurrences of the keys [key 0 .. key (n-1)] in [M] add up to the
    occurrences of [a] among the projections, when the keys are exactly
    the members of [M] that project to [a]. *)
Lemma sum_occ_fiber {A B} `{EqDecision A, EqDecision B}
    (key : nat → B) (proj : B → A) (a : A) (n : nat) (M : list B) :
  (∀ j j', key j = key j' → j = j') →
  (∀ j, proj (key j) = a) →
  (∀ q, q ∈ M → proj q = a → ∃ j, (j < n)%nat ∧ q = key j) →
  foldr Z.add 0 (map (λ j, occ (key j) M) (seq 0 n)) = occ a (map proj M).
Proof.
  intros Hinj Hproj. induction M as [|q M IH]; intros Hfib.
  - cbn [occ map]. apply sum_map_zero.
  - cbn [occ map].
    rewrite (sum_map_add (λ j, if decide (key j = q) then 1 else 0)
               (λ j, occ (key j) M)).
    rewrite IH by (intros q' Hq'; apply Hfib; by apply list_elem_of_further).
    f_equal. destruct (decide (a = proj q)) as [Ha|Ha].
    + destruct (Hfib q) as (j0 & Hj0 & ->); [apply list_elem_of_here|done|].
      rewrite (sum_map_ext _ (λ j, if decide (j = j0) then 1 else 0)).
      * apply occ_NoDup; [apply NoDup_seq|]. apply elem_of_seq. lia.
      * intros j _. destruct (decide (key j = key j0)) as [He|Hne].
        -- by rewrite decide_True by by apply Hinj.
        -- rewrite decide_False; [done|]. by intros ->.
    + rewrite (sum_map_ext _ (λ _, 0)); [apply sum_map_zero|].
      intros j _. rewrite decide_False; [done|].
      intros <-. by rewrite Hproj in Ha.
Qed.

Section marginals.
Context (N : matrix) (n : nat) (f : nat → nat → Z).
Hypothesis N_shape : shape N n n.
Hypothesis N_cells :
  ∀ i j, (i < n)%nat → (j < n)%nat → cell N i j = Some (f i j).

Lemma matrix_row_sum i :
  (i < n)%nat → row_sum N i = foldr Z.add 0 (map (f i) (seq 0 n)).
Proof.
  intros Hi. destruct N_shape as [Hlen Hrows]. unfold row_sum.
  destruct (lookup_lt_is_Some_2 N i) as [row Hrow]; [lia|].
  rewrite Hrow. cbn [default from_option id]. f_equal.
  rewrite Forall_forall in Hrows.
  assert (length row = n) as Hrl
    by (apply Hrows; by eapply list_elem_of_lookup_2).
  apply list_eq. intros j.
  change (map (f i) (seq 0 n)) with (f i <$> seq 0 n).
  rewrite list_lookup_fmap. destruct (decide (j < n)%nat) as [Hj|Hj].
  - rewrite lookup_seq_lt by done. cbn.
    specialize (N_cells i j Hi Hj). unfold cell in N_cells.
    by rewrite Hrow in N_cells.
  - rewrite lookup_seq_ge by lia. apply lookup_ge_None_2. lia.
Qed.

Lemma matrix_col_sum j :
  (j < n)%nat → col_sum N j = foldr Z.add 0 (map (λ i, f i j) (seq 0 n)).
Proof.
  intros Hj. destruct N_shape as [Hlen Hrows]. unfold col_sum. f_equal.
  apply list_eq. intros i.
  change (map (λ row, default 0 (row !! j)) N)
    with ((λ row : list Z, default 0 (row !! j)) <$> N).
  change (map (λ i, f i j) (seq 0 n)) with ((λ i, f i j) <$> seq 0 n).
  rewrite !list_lookup_fmap. destruct (decide (i < n)%nat) as [Hi|Hi].
  - rewrite lookup_seq_lt by done. cbn.
    specialize (N_cells i j Hi Hj). unfold cell in N_cells.
    destruct (N !! i) as [row|]; [|done]. cbn. by rewrite N_cells.
  - rewrite lookup_seq_ge by lia. rewrite lookup_ge_None_2 by lia. done.
Qed.
End marginals.

Lemma dense_bigrams_fst_snd (words : list string) :
  map fst (dense_bigrams words) ≡ₚ map snd (dense_bigrams words).
Proof.
  unfold dense_bigrams. induction words as [|w words IH]; [done|].
  cbn [flat_map]. rewrite !map_app. apply Permutation_app; [|exact IH].
  change (dense_chs w) with ("." :: list_str w ++ ["."]).
  change (map fst (zip_next ("." :: list_str w ++ ["."])))
    with ((zip_next ("." :: list_str w ++ ["."])).*1).
  change (map snd (zip_next ("." :: list_str w ++ ["."])))
    with ((zip_next ("." :: list_str w ++ ["."])).*2).
  rewrite zip_next_fst, zip_next_snd. apply Permutation_cons_append.
Qed.

Lemma dense_bigrams_starts (words : list string) :
  dot_free words →
  occ "." (map fst (dense_bigrams words)) = num_words words.
Proof.
  unfold dense_bigrams, num_words. induction words as [|w words IH];
    intros Hfree; [done|].
  cbn [flat_map length]. rewrite map_app, occ_app.
  rewrite IH by (intros w' Hw'; apply Hfree; by apply list_elem_of_further).
  change (dense_chs w) with ("." :: list_str w ++ ["."]).
  change (map fst (zip_next ("." :: list_str w ++ ["."])))
    with ((zip_next ("." :: list_str w ++ ["."])).*1).
  rewrite zip_next_fst. cbn [occ]. rewrite decide_True by done.
  assert (occ "." (list_str w) = 0) as ->; [|lia].
  pose proof (occ_nonneg "." (list_str w)) as Hnn.
  destruct (decide (0 < occ "." (list_str w))) as [Hpos|]; [|lia].
  apply occ_pos_elem_of, elem_of_list_str in Hpos as (c & [= <-] & Hc).
  exfalso. apply (Hfree w); [apply list_elem_of_here|done].
Qed.

(** X22: in the matrix of the array approach every symbol is entered as
    often as it is left: row [i] and column [i] have the same sum, for
    every index [i] of the matrix, because each word's symbol list starts
    and ends with the boundary symbol.  When no word contains ['.'], the
    boundary symbol has row and column 0 to itself and both sum to the
    number of words.  Sums are exact; the corpus is below the int64 range
    of the cells. *)
Theorem dense_marginals (words : list string) :
  total_chars words + num_words words < 2 ^ 63 →
  ∃ tbl, dense_cell words = Ok tbl
    ∧ (∀ i, (i < length (tbl_chars tbl))%nat →
         row_sum (tbl_N tbl) i = col_sum (tbl_N tbl) i)
    ∧ (dot_free words →
         row_sum (tbl_N tbl) 0 = num_words words
         ∧ col_sum (tbl_N tbl) 0 = num_words words).
Proof.
  intros Hbound.
  destruct (countBigramsDense_counts words (deriveAlphabet words)
    (deriveAlphabet_drawn_from words) Hbound)
    as (N & Hrun & Hshape & Hcells & _).
  eexists. split; [exact Hrun|]. cbn [tbl_N tbl_chars].
  set (chars := "." :: deriveAlphabet words) in *.
  set (stoi := make_stoi chars) in *.
  set (M := map (idx_pair stoi) (dense_bigrams words)) in *.
  assert (∀ q, q ∈ M → ∃ i j, q = (Some i, Some j)
            ∧ (i < length chars)%nat ∧ (j < length chars)%nat) as Hidx.
  { intros q (p & <- & Hp)%list_elem_of_In%in_map_iff.
    apply list_elem_of_In in Hp.
    destruct (dense_bigrams_indexed words (deriveAlphabet words)) with p
      as (i & j & Hi & Hj & Hin & Hjn); [|done|].
    - intros w Hw c Hc. apply list_elem_of_further.
      by apply (deriveAlphabet_drawn_from words w).
    - exists i, j. unfold idx_pair. fold chars in Hi, Hj. fold stoi in Hi, Hj.
      by rewrite Hi, Hj. }
  assert (∀ i, (i < length chars)%nat →
    row_sum N i
    = occ (Some i) (map (λ s, dict_get s stoi) (map fst (dense_bigrams words))))
    as Hrow.
  { intros i Hi.
    rewrite (matrix_row_sum N (length chars)
               (λ i j, occ (Some i, Some j) M) Hshape Hcells i Hi).
    rewrite (sum_occ_fiber (λ j, (Some i, Some j)) fst (Some i)).
    - unfold M. by rewrite !map_map.
    - by intros j j' [= ->].
    - done.
    - intros q Hq Hfst. destruct (Hidx q Hq) as (i' & j & -> & _ & Hj).
      cbn in Hfst. injection Hfst as ->. by exists j. }
  assert (∀ i, (i < length chars)%nat →
    col_sum N i
    = occ (Some i) (map (λ s, dict_get s stoi) (map snd (dense_bigrams words))))
    as Hcol.
  { intros j Hj.
    rewrite (matrix_col_sum N (length chars)
               (λ i j, occ (Some i, Some j) M) Hshape Hcells j Hj).
    rewrite (sum_occ_fiber (λ i, (Some i, Some j)) snd (Some j)).
    - unfold M. by rewrite !map_map.
    - by intros i i' [= ->].
    - done.
    - intros q Hq Hsnd. destruct (Hidx q Hq) as (i & j' & -> & Hi & _).
      cbn in Hsnd. injection Hsnd as ->. by exists i. }
  assert (∀ i, (i < length chars)%nat → row_sum N i = col_sum N i) as Hbal.
  { intros i Hi. rewrite Hrow, Hcol by done.
    apply occ_Permutation, Permutation_map, dense_bigrams_fst_snd. }
  split; [exact Hbal|].
  intros Hfree.
  assert (row_sum N 0 = num_words words) as H0.
  { rewrite Hrow by (cbn; lia).
    rewrite <- (make_stoi_boundary (deriveAlphabet words))
      by by apply dot_free_deriveAlphabet.
    fold chars. fold stoi.
    rewrite (occ_map_inj (λ s, dict_get s stoi) ".").
    - by apply dense_bigrams_starts.
    - intros s _ Hs. unfold stoi, chars in Hs.
      rewrite make_stoi_boundary in Hs by by apply dot_free_deriveAlphabet.
      by apply make_stoi_lookup in Hs as [= ->]. }
  split; [exact H0|]. rewrite <- Hbal by (cbn; lia). exact H0.
Qed.

Lemma dense_marginals_witness :
  ∃ tbl, dense_cell ["ab"; "b"] = Ok tbl
    ∧ (∀ i, (i < length (tbl_chars tbl))%nat →
         row_sum (tbl_N tbl) i = col_sum (tbl_N tbl) i)
    ∧ (dot_free ["ab"; "b"] →
         row_sum (tbl_N tbl) 0 = num_words ["ab"; "b"]
         ∧ col_sum (tbl_N tbl) 0 = num_words ["ab"; "b"]).
Proof. apply (dense_marginals ["ab"; "b"]). vm_compute. done. Defined.
